(** * lmdbsync: the synchronisation layer in front of an LMDB environment

    A shallow embedding of [exp/lmdbsync/lmdbsync.go].  Every method of
    [Env] is written as a program over the effects it performs (lock
    operations on [txnlock], reads and writes of the fields of [Env], reads
    of the package variables, calls into the wrapped [*lmdb.Env]).  The
    programs are given a sequential semantics ([exec]: one goroutine, the
    collaborators answering from an oracle) and an interleaving semantics
    ([Pool]) for several goroutines sharing one [txnlock]. *)

From Stdlib Require Import ZArith List Bool String Lia.
Import ListNotations.
Open Scope Z_scope.

(** ** Go data *)

(** Go's [int] on the 64-bit targets: [i++] wraps. *)
Definition int_min : Z := - 2 ^ 63.
Definition int_max : Z := 2 ^ 63 - 1.
Definition wrap_int (z : Z) : Z := (z + 2 ^ 63) mod 2 ^ 64 - 2 ^ 63.

(** Modelled from the spec: the failure values of the engine are declared in
    package [lmdb], which is not among the sources.  The spec singles out one
    distinguished failure, "the map was resized"; every other failure is
    told apart by a code. *)
Inductive failure : Type :=
| MapResized
| Failure (code : Z).

(** A Go [error]: [nil] is [None]. *)
Definition error : Type := option failure.

(** Modelled from the spec: [lmdb.IsMapResized] is declared in package
    [lmdb]; it recognises the distinguished map-resized failure. *)
Definition IsMapResized (err : error) : bool :=
  match err with
  | Some MapResized => true
  | _ => false
  end.

(** Modelled from the spec: the flag constants [lmdb.NoLock] and
    [lmdb.Readonly] are declared in package [lmdb]; the spec says that one
    bit of the flag mask designates each.  The values are those of LMDB's
    MDB_NOLOCK and MDB_RDONLY. *)
Definition NoLock : Z := 0x400000.
Definition Readonly : Z := 0x20000.

(** An [lmdb.TxnOp] is a closure this layer never looks into; it is known
    by a name. *)
Definition TxnOp : Type := nat.

(** ** Effects *)

(** The methods of the embedded [*lmdb.Env] that this layer calls.  Each
    returns an [error]. *)
Inductive call : Type :=
| Env_Open (path : string) (flags : Z) (mode : Z)
| Env_SetFlags (flags : Z)
| Env_UnsetFlags (flags : Z)
| Env_SetMapSize (size : Z)
| Env_RunTxn (flags : Z) (op : TxnOp)
| Env_View (op : TxnOp)
| Env_Update (op : TxnOp)
| Env_UpdateLocked (op : TxnOp).

Inductive effect : Type -> Type :=
| Lock : effect unit                       (* r.txnlock.Lock() *)
| Unlock : effect unit                     (* r.txnlock.Unlock() *)
| RLock : effect unit                      (* r.txnlock.RLock() *)
| RUnlock : effect unit                    (* r.txnlock.RUnlock() *)
| Sleep (d : Z) : effect unit              (* time.Sleep(d) *)
| FieldNoLock : effect bool                 (* r.noLock *)
| AssignNoLock (b : bool) : effect unit     (* r.noLock = b *)
| FieldRetryResize : effect Z               (* r.RetryResize *)
| FieldDelayRepeatResize : effect (option (Z -> Z))  (* r.DelayRepeatResize *)
| VarDefaultRetryResize : effect Z        (* DefaultRetryResize *)
| VarDefaultDelayRepeatResize : effect Z  (* DefaultDelayRepeatResize *)
| Engine (c : call) : effect error.        (* r.Env.<method>(...) *)

(** Programs: finite trees of effects.  [Panic] is Go's [panic(err)];
    [Spin] marks a loop cut off by its fuel. *)
Inductive prog (A : Type) : Type :=
| Ret (a : A)
| Panic (e : failure)
| Spin
| Vis {X : Type} (e : effect X) (k : X -> prog A).

Arguments Ret {A} a.
Arguments Panic {A} e.
Arguments Spin {A}.
Arguments Vis {A X} e k.

Fixpoint bind {A B : Type} (m : prog A) (f : A -> prog B) : prog B :=
  match m with
  | Ret a => f a
  | Panic e => Panic e
  | Spin => Spin
  | Vis e k => Vis e (fun x => bind (k x) f)
  end.

Definition perform {X : Type} (e : effect X) : prog X := Vis e Ret.

Declare Scope prog_scope.
Delimit Scope prog_scope with prog.
Notation "x <- m ;; k" := (bind m (fun x => k))
  (at level 61, m at next level, right associativity) : prog_scope.
Notation "m ;; k" := (bind m (fun _ => k))
  (at level 61, right associativity) : prog_scope.
Open Scope prog_scope.

Definition when (b : bool) (p : prog unit) : prog unit :=
  if b then p else Ret tt.

(** ** The methods of [Env] *)

(** [flags&lmdb.NoLock != 0] *)
Definition has_flag (flags bit : Z) : bool := negb (Z.land flags bit =? 0).

Definition Open (path : string) (flags : Z) (mode : Z) : prog error :=
  err <- perform (Engine (Env_Open path flags mode)) ;;
  match err with
  | Some _ => Ret err
  | None =>
      when (has_flag flags NoLock) (perform (AssignNoLock true)) ;;
      Ret None
  end.

Definition SetFlags (flags : Z) : prog error :=
  err <- perform (Engine (Env_SetFlags flags)) ;;
  match err with
  | Some _ => Ret err
  | None =>
      when (has_flag flags NoLock) (perform (AssignNoLock true)) ;;
      Ret None
  end.

Definition UnsetFlags (flags : Z) : prog error :=
  err <- perform (Engine (Env_UnsetFlags flags)) ;;
  match err with
  | Some _ => Ret err
  | None =>
      when (has_flag flags NoLock) (perform (AssignNoLock false)) ;;
      Ret None
  end.

Definition setMapSize (size : Z) (delay : Z) : prog error :=
  perform Lock ;;
  when (0 <? delay) (perform (Sleep delay)) ;;
  err <- perform (Engine (Env_SetMapSize 0)) ;;
  perform Unlock ;;
  Ret err.

Definition SetMapSize (size : Z) : prog error :=
  perform Lock ;;
  err <- setMapSize size 0 ;;
  perform Unlock ;;
  Ret err.

Definition run (readonly : bool) (fn : prog error) : prog error :=
  noLock <- perform FieldNoLock ;;
  if noLock && negb readonly then
    perform Lock ;;
    err <- fn ;;
    perform Unlock ;;
    Ret err
  else
    perform RLock ;;
    err <- fn ;;
    perform RUnlock ;;
    Ret err.

Definition getRetryResize : prog Z :=
  retryResize <- perform FieldRetryResize ;;
  if negb (retryResize =? 0) then Ret retryResize
  else perform VarDefaultRetryResize.

Definition getDelayRepeatResize (i : Z) : prog Z :=
  delayRepeatResize <- perform FieldDelayRepeatResize ;;
  match delayRepeatResize with
  | Some f => Ret (f i)
  | None => perform VarDefaultDelayRepeatResize
  end.

Section RetryDriver.

(** In [retryResized] the call reads [r.getDelayRepeatResize()], with no
    argument, although the method is declared with the parameter [i int].
    [passed i] is the index that call hands over at attempt [i]; the
    source does not say which, so everything below holds for every
    choice. *)
Variable passed : Z -> Z.

Definition retryResized (i : Z) (err : error) : prog bool :=
  if negb (IsMapResized err) then Ret false
  else
    maxRetry <- getRetryResize ;;
    if maxRetry <=? 0 then Ret false
    else if maxRetry <? i then Ret false
    else
      delay <- (if 0 <? i then getDelayRepeatResize (passed i) else Ret 0) ;;
      err' <- setMapSize 0 delay ;;
      match err' with
      | Some e => Panic e
      | None => Ret true
      end.

(** The loop [for i := 0; ; i++] of [runRetry], entered at index [i];
    [fuel] bounds the number of iterations. *)
Fixpoint runRetry_from (fuel : nat) (readonly : bool) (fn : prog error)
    (i : Z) : prog error :=
  match fuel with
  | O => Spin
  | S fuel' =>
      err <- run readonly fn ;;
      again <- retryResized i err ;;
      if negb again then Ret err
      else runRetry_from fuel' readonly fn (wrap_int (i + 1))
  end.

Definition runRetry (fuel : nat) (readonly : bool) (fn : prog error)
    : prog error :=
  runRetry_from fuel readonly fn 0.

Definition RunTxn (fuel : nat) (flags : Z) (op : TxnOp) : prog error :=
  let readonly := has_flag flags Readonly in
  runRetry fuel readonly (perform (Engine (Env_RunTxn flags op))).

Definition View (fuel : nat) (op : TxnOp) : prog error :=
  runRetry fuel true (perform (Engine (Env_View op))).

Definition Update (fuel : nat) (op : TxnOp) : prog error :=
  runRetry fuel false (perform (Engine (Env_Update op))).

Definition UpdateLocked (fuel : nat) (op : TxnOp) : prog error :=
  runRetry fuel false (perform (Engine (Env_UpdateLocked op))).

End RetryDriver.

(** The transaction entry points of [Env]. *)
Inductive txn : Type :=
| TxnRunTxn (flags : Z) (op : TxnOp)
| TxnView (op : TxnOp)
| TxnUpdate (op : TxnOp)
| TxnUpdateLocked (op : TxnOp).

(** The call into the engine that the closure handed to [runRetry] makes. *)
Definition txn_call (t : txn) : call :=
  match t with
  | TxnRunTxn flags op => Env_RunTxn flags op
  | TxnView op => Env_View op
  | TxnUpdate op => Env_Update op
  | TxnUpdateLocked op => Env_UpdateLocked op
  end.

(** The [readonly] argument each entry point hands to [runRetry]. *)
Definition txn_readonly (t : txn) : bool :=
  match t with
  | TxnRunTxn flags _ => has_flag flags Readonly
  | TxnView _ => true
  | TxnUpdate _ => false
  | TxnUpdateLocked _ => false
  end.

Definition run_txn (passed : Z -> Z) (fuel : nat) (t : txn) : prog error :=
  match t with
  | TxnRunTxn flags op => RunTxn passed fuel flags op
  | TxnView op => View passed fuel op
  | TxnUpdate op => Update passed fuel op
  | TxnUpdateLocked op => UpdateLocked passed fuel op
  end.

(** The flag-changing proxies. *)
Inductive flagop : Type :=
| FlagOpen (path : string) (flags : Z) (mode : Z)
| FlagSet (flags : Z)
| FlagUnset (flags : Z).

Definition flag_prog (o : flagop) : prog error :=
  match o with
  | FlagOpen path flags mode => Open path flags mode
  | FlagSet flags => SetFlags flags
  | FlagUnset flags => UnsetFlags flags
  end.

Definition flag_call (o : flagop) : call :=
  match o with
  | FlagOpen path flags mode => Env_Open path flags mode
  | FlagSet flags => Env_SetFlags flags
  | FlagUnset flags => Env_UnsetFlags flags
  end.

(** ** Sequential semantics *)

(** [sync.RWMutex], as far as this package observes it: whether a writer
    holds it and how many readers do. *)
Record RWMutex : Type := mkRWMutex {
  writer : bool;
  readers : nat
}.

Definition unlocked : RWMutex := mkRWMutex false 0.

Inductive event : Type :=
| EvLock
| EvUnlock
| EvRLock
| EvRUnlock
| EvSleep (d : Z)
| EvAssignNoLock (b : bool)
| EvCall (c : call) (result : error).

(** What one goroutine sees: the fields of the [Env] it works on, the two
    package variables, the collaborators, and the history so far (oldest
    event first).  The engine and the closures it runs answer a call from
    the history, so a closure may fail a few times and then succeed. *)
Record World : Type := mkWorld {
  RetryResize : Z;
  DelayRepeatResize : option (Z -> Z);
  noLock : bool;
  txnlock : RWMutex;
  DefaultRetryResize : Z;
  DefaultDelayRepeatResize : Z;
  engine : list event -> call -> error;
  trace : list event
}.

Definition log (ev : event) (w : World) : World :=
  mkWorld (RetryResize w) (DelayRepeatResize w) (noLock w) (txnlock w)
          (DefaultRetryResize w) (DefaultDelayRepeatResize w) (engine w)
          (trace w ++ [ev]).

Definition set_txnlock (m : RWMutex) (w : World) : World :=
  mkWorld (RetryResize w) (DelayRepeatResize w) (noLock w) m
          (DefaultRetryResize w) (DefaultDelayRepeatResize w) (engine w)
          (trace w).

Definition set_noLock (b : bool) (w : World) : World :=
  mkWorld (RetryResize w) (DelayRepeatResize w) b (txnlock w)
          (DefaultRetryResize w) (DefaultDelayRepeatResize w) (engine w)
          (trace w).

(** One effect in one world: it goes through with a value, it waits for the
    lock, or the runtime stops the program (unlocking a mutex that is not
    locked is a fatal error of [sync]).  [Lock] waits while a writer or a
    reader holds the mutex, [RLock] while a writer does.  Go also holds new
    readers back while a writer waits; that only takes steps away. *)
Inductive step (X : Type) : Type :=
| Next (x : X) (w : World)
| Wait
| Crash.

Arguments Next {X} x w.
Arguments Wait {X}.
Arguments Crash {X}.

Definition handle {X : Type} (e : effect X) (w : World) : step X :=
  match e in effect T return step T with
  | Lock =>
      if writer (txnlock w) || negb (Nat.eqb (readers (txnlock w)) 0) then Wait
      else Next tt (log EvLock (set_txnlock (mkRWMutex true 0) w))
  | Unlock =>
      if writer (txnlock w)
      then Next tt (log EvUnlock
                      (set_txnlock (mkRWMutex false (readers (txnlock w))) w))
      else Crash
  | RLock =>
      if writer (txnlock w) then Wait
      else Next tt (log EvRLock
                      (set_txnlock (mkRWMutex false (S (readers (txnlock w)))) w))
  | RUnlock =>
      match readers (txnlock w) with
      | O => Crash
      | S n => Next tt (log EvRUnlock
                          (set_txnlock (mkRWMutex (writer (txnlock w)) n) w))
      end
  | Sleep d => Next tt (log (EvSleep d) w)
  | FieldNoLock => Next (noLock w) w
  | AssignNoLock b => Next tt (log (EvAssignNoLock b) (set_noLock b w))
  | FieldRetryResize => Next (RetryResize w) w
  | FieldDelayRepeatResize => Next (DelayRepeatResize w) w
  | VarDefaultRetryResize => Next (DefaultRetryResize w) w
  | VarDefaultDelayRepeatResize => Next (DefaultDelayRepeatResize w) w
  | Engine c =>
      let result := engine w (trace w) c in
      Next result (log (EvCall c result) w)
  end.

(** How a call of one goroutine ends when no other goroutine touches the
    [Env]: it returns, it panics, it waits for a lock nobody will release,
    the runtime stops it, or the fuel of its loop ran out. *)
Inductive outcome (A : Type) : Type :=
| Returned (a : A) (w : World)
| Panicked (e : failure) (w : World)
| Deadlock (w : World)
| Fatal (w : World)
| Unfinished (w : World).

Arguments Returned {A} a w.
Arguments Panicked {A} e w.
Arguments Deadlock {A} w.
Arguments Fatal {A} w.
Arguments Unfinished {A} w.

Fixpoint exec {A : Type} (p : prog A) (w : World) : outcome A :=
  match p with
  | Ret a => Returned a w
  | Panic e => Panicked e w
  | Spin => Unfinished w
  | Vis e k =>
      match handle e w with
      | Next x w' => exec (k x) w'
      | Wait => Deadlock w
      | Crash => Fatal w
      end
  end.

(** *** Measures on a history *)

Definition is_txn_call (c : call) : bool :=
  match c with
  | Env_RunTxn _ _ | Env_View _ | Env_Update _ | Env_UpdateLocked _ => true
  | _ => false
  end.

Definition is_execution (ev : event) : bool :=
  match ev with
  | EvCall c _ => is_txn_call c
  | _ => false
  end.

Definition is_adoption (ev : event) : bool :=
  match ev with
  | EvCall (Env_SetMapSize _) _ => true
  | _ => false
  end.

(** How often a transaction closure has been executed. *)
Definition executions (tr : list event) : nat :=
  List.length (List.filter is_execution tr).

(** How often the engine has been asked to adopt a map size. *)
Definition adoptions (tr : list event) : nat :=
  List.length (List.filter is_adoption tr).

(** The sizes handed to the engine's [SetMapSize], in order. *)
Fixpoint adopted_sizes (tr : list event) : list Z :=
  match tr with
  | [] => []
  | EvCall (Env_SetMapSize size) _ :: tr' => size :: adopted_sizes tr'
  | _ :: tr' => adopted_sizes tr'
  end.

(** *** What one call leaves in the history *)

(** [w] with the events [evs] added to its history and nothing else
    changed. *)
Definition extend (evs : list event) (w : World) : World :=
  mkWorld (RetryResize w) (DelayRepeatResize w) (noLock w) (txnlock w)
          (DefaultRetryResize w) (DefaultDelayRepeatResize w) (engine w)
          (trace w ++ evs).

(** The value [getRetryResize] returns in [w]. *)
Definition effective_retry (w : World) : Z :=
  if negb (RetryResize w =? 0) then RetryResize w else DefaultRetryResize w.

(** The value [getDelayRepeatResize i] returns in [w]. *)
Definition effective_delay (i : Z) (w : World) : Z :=
  match DelayRepeatResize w with
  | Some f => f i
  | None => DefaultDelayRepeatResize w
  end.

(** The delay [retryResized] hands to [setMapSize] at attempt [i]. *)
Definition adoption_delay (passed : Z -> Z) (i : Z) (w : World) : Z :=
  if 0 <? i then effective_delay (passed i) w else 0.

Definition acquire_event (exclusive : bool) : event :=
  if exclusive then EvLock else EvRLock.

Definition release_event (exclusive : bool) : event :=
  if exclusive then EvUnlock else EvRUnlock.

Definition wait_events (delay : Z) : list event :=
  if 0 <? delay then [EvSleep delay] else [].

(** The events of one [run] whose closure is the engine call [c]. *)
Definition attempt_events (exclusive : bool) (c : call) (r : error)
    : list event :=
  [acquire_event exclusive; EvCall c r; release_event exclusive].

(** The events of one [setMapSize]. *)
Definition adoption_events (delay : Z) (r : error) : list event :=
  EvLock :: wait_events delay ++ [EvCall (Env_SetMapSize 0) r; EvUnlock].

(** ** Lock modes *)

Inductive mode : Type := Shared | Exclusive.

Definition is_acquire {X : Type} (e : effect X) : option mode :=
  match e with
  | Lock => Some Exclusive
  | RLock => Some Shared
  | _ => None
  end.

(** The mode of the first acquisition of [txnlock] that a program makes
    when it starts in world [w]. *)
Fixpoint acquisition {A : Type} (p : prog A) (w : World) : option mode :=
  match p with
  | Vis e k =>
      match is_acquire e with
      | Some m => Some m
      | None =>
          match handle e w with
          | Next x w' => acquisition (k x) w'
          | _ => None
          end
      end
  | _ => None
  end.

(** What goes through the coordinator: a map-size change ([setMapSize], or
    the public [SetMapSize]) or one execution of a transaction closure
    ([run]). *)
Inductive operation : Type :=
| MapSizeChange (size : Z) (delay : Z)
| PublicMapSizeChange (size : Z)
| Transaction (readonly : bool) (fn : prog error).

Definition dispatch (o : operation) : prog error :=
  match o with
  | MapSizeChange size delay => setMapSize size delay
  | PublicMapSizeChange size => SetMapSize size
  | Transaction readonly fn => run readonly fn
  end.

Definition is_map_size_change (o : operation) : bool :=
  match o with
  | MapSizeChange _ _ => true
  | PublicMapSizeChange _ => true
  | Transaction _ _ => false
  end.

Definition is_read_write (o : operation) : bool :=
  match o with
  | Transaction readonly _ => negb readonly
  | _ => false
  end.

(** ** The size handed to the engine *)

Definition size_is_sentinel {X : Type} (e : effect X) : Prop :=
  match e with
  | Engine (Env_SetMapSize size) => size = 0
  | _ => True
  end.

(** Every call of the engine's [SetMapSize] that the program can make, on
    any path, carries the size 0. *)
Fixpoint adopts_only_sentinel {A : Type} (p : prog A) : Prop :=
  match p with
  | Vis e k => size_is_sentinel e /\ forall x, adopts_only_sentinel (k x)
  | _ => True
  end.

(** ** Interleaving semantics *)

Module Pool.

(** What a goroutine holds of [txnlock]. *)
Inductive held : Type := Nothing | HeldShared | HeldExclusive.

(** What an effect does to the lock, seen from the goroutine that performs
    it: it changes what the goroutine holds, it is an acquisition by the
    goroutine that already holds the exclusive mode, or it is a use of the
    mutex that no method of [Env] makes. *)
Inductive verdict : Type :=
| Moves (h : held)
| Reacquires
| Misuse.

Definition transition {X : Type} (e : effect X) (h : held) : verdict :=
  match e with
  | Lock =>
      match h with
      | Nothing => Moves HeldExclusive
      | HeldExclusive => Reacquires
      | HeldShared => Misuse
      end
  | Unlock => match h with HeldExclusive => Moves Nothing | _ => Misuse end
  | RLock =>
      match h with
      | Nothing => Moves HeldShared
      | HeldExclusive => Reacquires
      | HeldShared => Misuse
      end
  | RUnlock => match h with HeldShared => Moves Nothing | _ => Misuse end
  | _ => Moves h
  end.

Definition after {X : Type} (e : effect X) (h : held) : held :=
  match transition e h with
  | Moves h' => h'
  | _ => h
  end.

(** A program that uses the lock the way the methods of [Env] do: it
    releases what it holds and nothing else, and returns holding nothing.
    Nothing is asked of what follows an acquisition by the holder. *)
Fixpoint disciplined {A : Type} (h : held) (p : prog A) : Prop :=
  match p with
  | Ret _ => h = Nothing
  | Panic _ => True
  | Spin => True
  | Vis e k =>
      match transition e h with
      | Moves h' => forall x, disciplined h' (k x)
      | Reacquires => True
      | Misuse => False
      end
  end.

Record goroutine : Type := mkGoroutine {
  holds : held;
  code : prog error
}.

(** The goroutines are numbered; one with nothing left to do sits at
    [Ret]. *)
Definition pool : Type := nat -> goroutine.

Definition update (i : nat) (g : goroutine) (gs : pool) : pool :=
  fun j => if Nat.eqb j i then g else gs j.

(** A goroutine performs its next effect on the shared world.  An effect
    that has to wait gives no step: whether the lock is granted is decided
    by [handle] from the state of the mutex alone. *)
Definition step_goroutine (g : goroutine) (w : World)
    : option (World * goroutine) :=
  match code g with
  | Vis e k =>
      match handle e w with
      | Next x w' => Some (w', mkGoroutine (after e (holds g)) (k x))
      | _ => None
      end
  | _ => None
  end.

Inductive pstep : World * pool -> World * pool -> Prop :=
| pstep_at (w w' : World) (gs : pool) (i : nat) (g' : goroutine) :
    step_goroutine (gs i) w = Some (w', g') ->
    pstep (w, gs) (w', update i g' gs).

Inductive reaches : World * pool -> World * pool -> Prop :=
| reaches_refl s : reaches s s
| reaches_step s1 s2 s3 : reaches s1 s2 -> pstep s2 s3 -> reaches s1 s3.

(** What [SetMapSize] has left to do once its own [Lock] went through. *)
Definition SetMapSize_locked (size : Z) : prog error :=
  err <- setMapSize size 0 ;;
  perform Unlock ;;
  Ret err.

(** The invariant of a pool of disciplined goroutines: the exclusive mode
    has one holder at most, and while it has one the mutex says so. *)
Definition consistent (s : World * pool) : Prop :=
  let (w, gs) := s in
  (forall i, disciplined (holds (gs i)) (code (gs i)))
  /\ (forall i, holds (gs i) = HeldExclusive -> writer (txnlock w) = true)
  /\ (forall i j, holds (gs i) = HeldExclusive ->
                  holds (gs j) = HeldExclusive -> i = j).

End Pool.

(** ** Worlds to run the programs in *)

(** An engine whose transactions fail with the map-resized failure until
    [k] closures have been executed and succeed from then on; every other
    call succeeds. *)
Definition resized_first (k : nat) : list event -> call -> error :=
  fun tr c =>
    if is_txn_call c && (executions tr <? k)%nat then Some MapResized else None.

(** An engine whose transactions always fail with the map-resized failure. *)
Definition resized_always : list event -> call -> error :=
  fun _ c => if is_txn_call c then Some MapResized else None.

(** An engine on which every call but the adoption of a map size fails with
    [e]. *)
Definition failing_with (e : failure) : list event -> call -> error :=
  fun _ c =>
    match c with
    | Env_SetMapSize _ => None
    | _ => Some e
    end.

(** A freshly wrapped environment: the lock is free and nothing has
    happened yet.  The package variables have their declared values
    ([DefaultRetryResize = 2], [DefaultDelayRepeatResize = time.Millisecond],
    in nanoseconds). *)
Definition fresh (retryResize : Z) (delayRepeatResize : option (Z -> Z))
    (lockingDisabled : bool) (eng : list event -> call -> error) : World :=
  mkWorld retryResize delayRepeatResize lockingDisabled unlocked
          2 1000000 eng [].

(** The same with the package variable [DefaultRetryResize] set to [d]. *)
Definition fresh_with_default (d : Z) (retryResize : Z)
    (eng : list event -> call -> error) : World :=
  mkWorld retryResize None false unlocked d 1000000 eng [].

(** A delay that grows with the attempt: [retry] milliseconds. *)
Definition linear_delay (retry : Z) : Z := retry * 1000000.

(** A pool of three goroutines: the first calls [SetMapSize], the second
    runs an update, the third a view; the others are idle. *)
Definition three_goroutines (passed : Z -> Z) : Pool.pool :=
  fun j =>
    match j with
    | 0%nat => Pool.mkGoroutine Pool.Nothing (SetMapSize 1048576)
    | 1%nat => Pool.mkGoroutine Pool.Nothing (Update passed 3 7%nat)
    | 2%nat => Pool.mkGoroutine Pool.Nothing (View passed 3 8%nat)
    | _ => Pool.mkGoroutine Pool.Nothing (Ret None)
    end.

(** ** Construction *)

(** Modelled from the spec: [syscall.EINVAL] and [lmdb.IsErrnoSys] are not
    among the sources; the probe of the flags fails with this error "because
    the environment is not yet open".  A system error is a [Failure] whose
    code is its errno. *)
Definition EINVAL : Z := 22.

Definition IsErrnoSys (err : error) (errno : Z) : bool :=
  match err with
  | Some (Failure code) => code =? errno
  | _ => false
  end.

(** An [*lmdb.Env], known by a name. *)
Definition Handle : Type := nat.

(** The struct [Env]: the embedded [*lmdb.Env] and the four fields. *)
Record Env : Type := mkEnv {
  r_Env : Handle;
  r_RetryResize : Z;
  r_DelayRepeatResize : option (Z -> Z);
  r_noLock : bool;
  r_txnlock : RWMutex
}.

(** [NewEnv(env)]: [env] is [None] for [nil]; [lmdb_NewEnv] is what
    [lmdb.NewEnv()] returns and [Flags h] what [h.Flags()] returns.  The
    result is the pair of the [*Env] ([None] for [nil]) and the [error]. *)
Definition NewEnv (env : option Handle) (lmdb_NewEnv : Handle * error)
    (Flags : Handle -> Z * error) : option Env * error :=
  let allocated :=
    match env with
    | Some h => (Some h, None)
    | None =>
        let (h, err) := lmdb_NewEnv in
        match err with
        | Some _ => (None, err)
        | None => (Some h, None)
        end
    end in
  match allocated with
  | (None, err) => (None, err)
  | (Some h, _) =>
      let (flags, err) := Flags h in
      let err := if IsErrnoSys err EINVAL then None else err in
      match err with
      | Some _ => (None, err)
      | None =>
          let noLock := has_flag flags NoLock in
          (Some (mkEnv h 0 None noLock unlocked), None)
      end
  end.

(** The world of a goroutine that starts to work on the [Env] [r], with
    the package variables at [d] and [dd]. *)
Definition world_of (r : Env) (d dd : Z) (eng : list event -> call -> error)
    : World :=
  mkWorld (r_RetryResize r) (r_DelayRepeatResize r) (r_noLock r)
          (r_txnlock r) d dd eng [].

(** ** Outcomes *)

(** The world an outcome ends in. *)
Definition final_world {A : Type} (o : outcome A) : World :=
  match o with
  | Returned _ w => w
  | Panicked _ w => w
  | Deadlock w => w
  | Fatal w => w
  | Unfinished w => w
  end.

(** The call neither returned nor panicked nor ran out of fuel: it waits
    for the lock, or the runtime stopped it. *)
Definition blocked {A : Type} (o : outcome A) : bool :=
  match o with
  | Deadlock _ => true
  | Fatal _ => true
  | _ => false
  end.

(** ** Critical sections *)

(** Where the engine may be called: the adoption of a map size under the
    exclusive mode, a transaction under either mode. *)
Definition under_lock {X : Type} (e : effect X) (h : Pool.held) : Prop :=
  match e with
  | Engine c =>
      match c with
      | Env_SetMapSize _ => h = Pool.HeldExclusive
      | _ => if is_txn_call c then h <> Pool.Nothing else True
      end
  | _ => True
  end.

(** A disciplined program that calls the engine only where [under_lock]
    allows. *)
Fixpoint guarded {A : Type} (h : Pool.held) (p : prog A) : Prop :=
  match p with
  | Ret _ => h = Pool.Nothing
  | Panic _ => True
  | Spin => True
  | Vis e k =>
      under_lock e h
      /\ match Pool.transition e h with
         | Pool.Moves h' => forall x, guarded h' (k x)
         | Pool.Reacquires => True
         | Pool.Misuse => False
         end
  end.

(** The goroutine stands before the engine's [SetMapSize]. *)
Definition at_adoption (g : Pool.goroutine) : bool :=
  match Pool.code g with
  | Vis e _ =>
      match e with
      | Engine (Env_SetMapSize _) => true
      | _ => false
      end
  | _ => false
  end.

(** The goroutine stands before a transaction of the engine. *)
Definition at_transaction (g : Pool.goroutine) : bool :=
  match Pool.code g with
  | Vis e _ =>
      match e with
      | Engine c => is_txn_call c
      | _ => false
      end
  | _ => false
  end.

Definition without (i : nat) (l : list nat) : list nat :=
  filter (fun j => negb (Nat.eqb j i)) l.

(** The mutex counts the holders of the shared mode, and a holder of the
    exclusive mode is the only holder. *)
Definition tallied (s : World * Pool.pool) : Prop :=
  (exists l, NoDup l
             /\ (forall i, In i l <-> Pool.holds (snd s i) = Pool.HeldShared)
             /\ readers (txnlock (fst s)) = List.length l)
  /\ (forall i j, Pool.holds (snd s i) = Pool.HeldExclusive ->
                  Pool.holds (snd s j) = Pool.HeldShared -> False).

(** The invariant of a pool of guarded goroutines. *)
Definition coordinated (s : World * Pool.pool) : Prop :=
  Pool.consistent s
  /\ (forall i, guarded (Pool.holds (snd s i)) (Pool.code (snd s i)))
  /\ tallied s.

(** ** More worlds *)

(** An engine whose transactions always fail with the map-resized failure
    and whose adoptions of a map size fail with [e]. *)
Definition adoption_fails_with (e : failure) : list event -> call -> error :=
  fun _ c =>
    if is_txn_call c then Some MapResized
    else match c with
         | Env_SetMapSize _ => Some e
         | _ => None
         end.

(** [w] after a [Lock] went through. *)
Definition locked (w : World) : World :=
  log EvLock (set_txnlock (mkRWMutex true 0) w).

(** What [setMapSize] has left to do, without delay, once its [Lock] went
    through. *)
Definition setMapSize_locked : prog error :=
  err <- perform (Engine (Env_SetMapSize 0)) ;;
  perform Unlock ;;
  Ret err.

(** A pool where the first goroutine adopts a map size while the second
    runs a view. *)
Definition adopting_goroutines (passed : Z -> Z) : Pool.pool :=
  fun j =>
    match j with
    | 0%nat => Pool.mkGoroutine Pool.Nothing (setMapSize 0 0)
    | 1%nat => Pool.mkGoroutine Pool.Nothing (View passed 3 8%nat)
    | _ => Pool.mkGoroutine Pool.Nothing (Ret None)
    end.

(** * Properties *)

(** ** The sequential semantics of the methods *)

Lemma exec_bind {A B : Type} (m : prog A) (f : A -> prog B) (w : World) :
  exec (bind m f) w =
  match exec m w with
  | Returned a w' => exec (f a) w'
  | Panicked e w' => Panicked e w'
  | Deadlock w' => Deadlock w'
  | Fatal w' => Fatal w'
  | Unfinished w' => Unfinished w'
  end.
Proof.
  revert w. induction m as [a | e | | X e k IH]; intro w; simpl; try reflexivity.
  destruct (handle e w); auto.
Qed.

Ltac world_eq :=
  unfold extend, log, set_txnlock, set_noLock; simpl;
  rewrite <- ?app_assoc; simpl; try reflexivity.

Lemma extend_extend evs1 evs2 w :
  extend evs2 (extend evs1 w) = extend (evs1 ++ evs2) w.
Proof. world_eq. Qed.

Lemma extend_nil w : extend [] w = w.
Proof. destruct w; unfold extend; simpl. rewrite app_nil_r. reflexivity. Qed.

Lemma executions_app tr1 tr2 :
  executions (tr1 ++ tr2) = (executions tr1 + executions tr2)%nat.
Proof. unfold executions. rewrite filter_app, length_app. reflexivity. Qed.

Lemma adoptions_app tr1 tr2 :
  adoptions (tr1 ++ tr2) = (adoptions tr1 + adoptions tr2)%nat.
Proof. unfold adoptions. rewrite filter_app, length_app. reflexivity. Qed.

Lemma executions_attempt x c r :
  is_txn_call c = true -> executions (attempt_events x c r) = 1%nat.
Proof. intros H. destruct x; unfold executions; simpl; rewrite H; reflexivity. Qed.

Lemma adoptions_attempt x c r :
  is_txn_call c = true -> adoptions (attempt_events x c r) = 0%nat.
Proof. intros H. destruct x, c; try discriminate; reflexivity. Qed.

Lemma executions_adoption d r : executions (adoption_events d r) = 0%nat.
Proof. unfold adoption_events, wait_events. destruct (0 <? d); reflexivity. Qed.

Lemma adoptions_adoption d r : adoptions (adoption_events d r) = 1%nat.
Proof. unfold adoption_events, wait_events. destruct (0 <? d); reflexivity. Qed.

Lemma executions_acquire x tr :
  executions (tr ++ [acquire_event x]) = executions tr.
Proof. rewrite executions_app. destruct x; cbn; lia. Qed.

Create Rewrite HintDb history.
#[export] Hint Rewrite executions_app adoptions_app executions_adoption
  adoptions_adoption : history.
#[export] Hint Rewrite executions_attempt adoptions_attempt
  using assumption : history.

Lemma wrap_int_id z : int_min <= z <= int_max -> wrap_int z = z.
Proof.
  unfold wrap_int, int_min, int_max.
  change (2 ^ 63) with 9223372036854775808.
  change (2 ^ 64) with 18446744073709551616.
  intros H. rewrite Z.mod_small; lia.
Qed.

Lemma txn_call_is_txn_call t : is_txn_call (txn_call t) = true.
Proof. destruct t; reflexivity. Qed.

(** [run] around one call of the engine, the lock being free. *)
Lemma exec_run_call ro c w :
  txnlock w = unlocked ->
  let x := noLock w && negb ro in
  let r := engine w (trace w ++ [acquire_event x]) c in
  exec (run ro (perform (Engine c))) w =
  Returned r (extend (attempt_events x c r) w).
Proof.
  intros H. destruct w as [rr dr nl [wr rd] drr ddr eng tr].
  simpl in H. inversion H; subst. simpl.
  destruct (nl && negb ro); simpl; world_eq.
Qed.

(** [setMapSize], the lock being free. *)
Lemma exec_setMapSize size delay w :
  txnlock w = unlocked ->
  let r := engine w (trace w ++ EvLock :: wait_events delay) (Env_SetMapSize 0) in
  exec (setMapSize size delay) w =
  Returned r (extend (adoption_events delay r) w).
Proof.
  intros H. destruct w as [rr dr nl [wr rd] drr ddr eng tr].
  simpl in H. inversion H; subst. unfold setMapSize, adoption_events, wait_events.
  simpl. destruct (0 <? delay); simpl; world_eq.
Qed.

(** One goroutine alone: the public [SetMapSize] takes the lock and then
    waits for it. *)
Lemma exec_SetMapSize size w :
  txnlock w = unlocked ->
  exec (SetMapSize size) w =
  Deadlock (log EvLock (set_txnlock (mkRWMutex true 0) w)).
Proof.
  intros H. destruct w as [rr dr nl [wr rd] drr ddr eng tr].
  simpl in H. inversion H; subst. reflexivity.
Qed.

Lemma exec_getRetryResize w :
  exec getRetryResize w = Returned (effective_retry w) w.
Proof.
  unfold getRetryResize, effective_retry. simpl.
  destruct (negb (RetryResize w =? 0)); reflexivity.
Qed.

Lemma exec_getDelayRepeatResize i w :
  exec (getDelayRepeatResize i) w = Returned (effective_delay i w) w.
Proof.
  unfold getDelayRepeatResize, effective_delay. simpl.
  destruct (DelayRepeatResize w); reflexivity.
Qed.

Lemma run_txn_unfold passed fuel t :
  run_txn passed fuel t =
  runRetry_from passed fuel (txn_readonly t) (perform (Engine (txn_call t))) 0.
Proof. destruct t; reflexivity. Qed.

Section Driver.

Variable passed : Z -> Z.

Lemma runRetry_from_S fuel ro fn i :
  runRetry_from passed (S fuel) ro fn i =
  (err <- run ro fn ;;
   again <- retryResized passed i err ;;
   if negb again then Ret err
   else runRetry_from passed fuel ro fn (wrap_int (i + 1))).
Proof. reflexivity. Qed.

Lemma exec_retryResized_other i err w :
  IsMapResized err = false ->
  exec (retryResized passed i err) w = Returned false w.
Proof. intros H. unfold retryResized. rewrite H. reflexivity. Qed.

Lemma exec_retryResized_disabled i err w :
  effective_retry w <= 0 ->
  exec (retryResized passed i err) w = Returned false w.
Proof.
  intros H. unfold retryResized. destruct (negb (IsMapResized err)); [reflexivity|].
  rewrite exec_bind, exec_getRetryResize.
  apply Z.leb_le in H. rewrite H. reflexivity.
Qed.

Lemma exec_retryResized_exhausted i err w :
  effective_retry w < i ->
  exec (retryResized passed i err) w = Returned false w.
Proof.
  intros H. unfold retryResized. destruct (negb (IsMapResized err)); [reflexivity|].
  rewrite exec_bind, exec_getRetryResize.
  destruct (effective_retry w <=? 0); [reflexivity|].
  apply Z.ltb_lt in H. rewrite H. reflexivity.
Qed.

(** [retryResized] when it does adopt: the failure is the map-resized one,
    the limit is positive and not below the attempt index. *)
Lemma exec_retryResized_adopt i err w :
  IsMapResized err = true ->
  0 < effective_retry w -> i <= effective_retry w ->
  txnlock w = unlocked ->
  let delay := adoption_delay passed i w in
  let r := engine w (trace w ++ EvLock :: wait_events delay) (Env_SetMapSize 0) in
  exec (retryResized passed i err) w =
  match r with
  | Some e => Panicked e (extend (adoption_events delay r) w)
  | None => Returned true (extend (adoption_events delay r) w)
  end.
Proof.
  intros Hr Hpos Hi Hl. unfold retryResized. rewrite Hr. simpl negb. cbv iota.
  rewrite exec_bind, exec_getRetryResize.
  destruct (Z.leb_spec (effective_retry w) 0); [lia|].
  destruct (Z.ltb_spec (effective_retry w) i); [lia|].
  rewrite exec_bind.
  assert (Hd : exec (if 0 <? i then getDelayRepeatResize (passed i) else Ret 0) w
               = Returned (adoption_delay passed i w) w).
  { unfold adoption_delay.
    destruct (0 <? i); [apply exec_getDelayRepeatResize | reflexivity]. }
  rewrite Hd. rewrite exec_bind, exec_setMapSize by assumption.
  simpl. destruct (engine w _ _); reflexivity.
Qed.

(** One iteration of the loop whose attempt is not retried. *)
Lemma exec_attempt_final fuel ro c i w :
  txnlock w = unlocked ->
  let x := noLock w && negb ro in
  let r := engine w (trace w ++ [acquire_event x]) c in
  IsMapResized r = false \/ effective_retry w <= 0 \/ effective_retry w < i ->
  exec (runRetry_from passed (S fuel) ro (perform (Engine c)) i) w =
  Returned r (extend (attempt_events x c r) w).
Proof.
  intros Hl x r H. rewrite runRetry_from_S.
  rewrite exec_bind, exec_run_call by assumption. fold x r.
  rewrite exec_bind.
  assert (Hs : exec (retryResized passed i r) (extend (attempt_events x c r) w)
               = Returned false (extend (attempt_events x c r) w)).
  { destruct H as [H | [H | H]].
    - apply exec_retryResized_other; assumption.
    - apply exec_retryResized_disabled; assumption.
    - apply exec_retryResized_exhausted; assumption. }
  rewrite Hs. reflexivity.
Qed.

(** One iteration whose attempt fails with the map-resized failure and is
    retried after the adoption went through. *)
Lemma exec_attempt_retry fuel ro c i w :
  txnlock w = unlocked ->
  let x := noLock w && negb ro in
  let w1 := extend (attempt_events x c (Some MapResized)) w in
  let d := adoption_delay passed i w in
  engine w (trace w ++ [acquire_event x]) c = Some MapResized ->
  engine w (trace w1 ++ EvLock :: wait_events d) (Env_SetMapSize 0) = None ->
  0 < effective_retry w -> i <= effective_retry w ->
  exec (runRetry_from passed (S fuel) ro (perform (Engine c)) i) w =
  exec (runRetry_from passed fuel ro (perform (Engine c)) (wrap_int (i + 1)))
       (extend (attempt_events x c (Some MapResized) ++ adoption_events d None) w).
Proof.
  intros Hl x w1 d Hr Ha Hpos Hi. rewrite runRetry_from_S.
  rewrite exec_bind, exec_run_call by assumption. fold x. rewrite Hr. fold w1.
  rewrite exec_bind.
  rewrite (exec_retryResized_adopt i (Some MapResized) w1);
    try assumption; try reflexivity.
  change (adoption_delay passed i w1) with d. change (engine w1) with (engine w).
  rewrite Ha. simpl negb. cbv iota. unfold w1. rewrite extend_extend. reflexivity.
Qed.

(** [n] failed attempts in a row, each followed by an adoption: the loop
    goes from index [j] to index [j + n]. *)
Lemma exec_retry_failures ro c k :
  forall n j w fuel,
    (j + n <= k)%nat ->
    txnlock w = unlocked -> executions (trace w) = j ->
    0 < effective_retry w -> Z.of_nat (j + n) <= effective_retry w + 1 ->
    Z.of_nat (j + n) <= int_max ->
    (forall tr, (executions tr < k)%nat -> engine w tr c = Some MapResized) ->
    (forall tr, engine w tr (Env_SetMapSize 0) = None) ->
    is_txn_call c = true ->
    exists evs,
      exec (runRetry_from passed (n + fuel) ro (perform (Engine c)) (Z.of_nat j)) w =
      exec (runRetry_from passed fuel ro (perform (Engine c)) (Z.of_nat (j + n)))
           (extend evs w)
      /\ executions evs = n /\ adoptions evs = n.
Proof.
  induction n as [| n IH]; intros j w fuel Hk Hl Hj Hpos Hm Hmax Hfail Hadopt Hc.
  - exists []. rewrite extend_nil, Nat.add_0_r. auto.
  - set (x := noLock w && negb ro).
    set (d := adoption_delay passed (Z.of_nat j) w).
    set (evs1 := attempt_events x c (Some MapResized) ++ adoption_events d None).
    destruct (IH (S j) (extend evs1 w) fuel) as (evs & He & Hx & Ha); try assumption.
    + lia.
    + simpl. unfold evs1. autorewrite with history. lia.
    + change (effective_retry (extend evs1 w)) with (effective_retry w). lia.
    + lia.
    + exists (evs1 ++ evs). split; [| split].
      * change (S n + fuel)%nat with (S (n + fuel)).
        rewrite exec_attempt_retry; try assumption; try lia.
        -- fold x d evs1. rewrite wrap_int_id by (unfold int_min; lia).
           replace (Z.of_nat j + 1) with (Z.of_nat (S j)) by lia.
           rewrite He, extend_extend.
           replace (S j + n)%nat with (j + S n)%nat by lia. reflexivity.
        -- apply Hfail. rewrite executions_acquire. lia.
        -- apply Hadopt.
      * unfold evs1. autorewrite with history. lia.
      * unfold evs1. autorewrite with history. lia.
Qed.

(** A closure that always fails with the map-resized failure, under a
    positive limit [m]: the loop gives up at index [m + 1], after [m + 2]
    executions and [m + 1] adoptions. *)
Lemma exec_retry_exhausted ro c (m : nat) w fuel :
  txnlock w = unlocked -> trace w = [] ->
  effective_retry w = Z.of_nat m -> (0 < m)%nat -> Z.of_nat m < int_max ->
  (forall tr, engine w tr c = Some MapResized) ->
  (forall tr, engine w tr (Env_SetMapSize 0) = None) ->
  is_txn_call c = true ->
  (m + 2 <= fuel)%nat ->
  exists w',
    exec (runRetry_from passed fuel ro (perform (Engine c)) 0) w
    = Returned (Some MapResized) w'
    /\ adoptions (trace w') = S m /\ executions (trace w') = S (S m)
    /\ txnlock w' = unlocked.
Proof.
  intros Hl Ht Hm Hpos Hmax Hfail Hadopt Hc Hfuel.
  destruct (exec_retry_failures ro c (S m) (S m) 0 w (fuel - S m))
    as (evs & He & Hx & Ha); try assumption; try lia.
  - rewrite Ht. reflexivity.
  - intros tr _. apply Hfail.
  - replace (S m + (fuel - S m))%nat with fuel in He by lia.
    change (Z.of_nat 0) with 0 in He. rewrite He.
    destruct (fuel - S m)%nat as [| f] eqn:Hf; [lia|].
    rewrite exec_attempt_final.
    + change (engine (extend evs w)) with (engine w). rewrite Hfail.
      eexists. split; [reflexivity|]. simpl trace. rewrite Ht. simpl app.
      autorewrite with history. repeat split; try lia. assumption.
    + assumption.
    + right; right.
      change (effective_retry (extend evs w)) with (effective_retry w). lia.
Qed.

(** One attempt that the driver does not retry, for an entry point. *)
Lemma exec_single_attempt t w fuel i (r : error) :
  txnlock w = unlocked ->
  (forall tr, executions tr = executions (trace w) -> engine w tr (txn_call t) = r) ->
  IsMapResized r = false \/ effective_retry w <= 0 \/ effective_retry w < i ->
  exists evs,
    exec (runRetry_from passed (S fuel) (txn_readonly t)
            (perform (Engine (txn_call t))) i) w
    = Returned r (extend evs w)
    /\ adoptions evs = 0%nat /\ executions evs = 1%nat.
Proof.
  intros Hl Hr Hstop.
  pose proof (txn_call_is_txn_call t) as Hc.
  set (x := noLock w && negb (txn_readonly t)).
  assert (Hx : engine w (trace w ++ [acquire_event x]) (txn_call t) = r).
  { apply Hr. apply executions_acquire. }
  exists (attempt_events x (txn_call t) r). split; [| split].
  - rewrite exec_attempt_final by (try assumption; fold x; rewrite Hx; assumption).
    fold x. rewrite Hx. reflexivity.
  - apply adoptions_attempt; assumption.
  - apply executions_attempt; assumption.
Qed.

End Driver.

(** ** The retry driver *)

(** C6: with [RetryResize = k + 1], a transaction whose closure fails with
    the map-resized failure on exactly its first [k] executions and then
    succeeds makes the entry point return success ([nil]) after exactly
    [k] map-size adoptions (and [k + 1] executions), given enough fuel.
    The adoptions are taken to succeed: a failing one makes the driver
    panic. *)
Theorem runRetry_succeeds_after_k_failures
    (passed : Z -> Z) (k : nat) (t : txn) (w : World) (fuel : nat) :
  trace w = [] -> txnlock w = unlocked ->
  RetryResize w = Z.of_nat k + 1 -> RetryResize w <= int_max ->
  (forall tr, (executions tr < k)%nat ->
              engine w tr (txn_call t) = Some MapResized) ->
  (forall tr, executions tr = k -> engine w tr (txn_call t) = None) ->
  (forall tr, engine w tr (Env_SetMapSize 0) = None) ->
  (k < fuel)%nat ->
  exists w',
    exec (run_txn passed fuel t) w = Returned None w'
    /\ adoptions (trace w') = k /\ executions (trace w') = S k
    /\ txnlock w' = unlocked.
Proof.
  intros Ht Hl Hr Hmax Hfail Hok Hadopt Hfuel.
  pose proof (txn_call_is_txn_call t) as Hc.
  assert (Hm : effective_retry w = Z.of_nat k + 1).
  { unfold effective_retry. rewrite Hr.
    destruct (Z.eqb_spec (Z.of_nat k + 1) 0); [lia | reflexivity]. }
  rewrite run_txn_unfold.
  destruct (exec_retry_failures passed (txn_readonly t) (txn_call t) k k 0 w (fuel - k))
    as (evs & He & Hx & Ha); try assumption; try lia.
  - rewrite Ht. reflexivity.
  - replace (k + (fuel - k))%nat with fuel in He by lia.
    change (Z.of_nat 0) with 0 in He. rewrite He.
    destruct (fuel - k)%nat as [| f] eqn:Hf; [lia|].
    assert (Hnow : engine w (trace (extend evs w)
                     ++ [acquire_event (noLock w && negb (txn_readonly t))])
                     (txn_call t) = None).
    { apply Hok. rewrite executions_acquire. simpl. rewrite Ht. simpl. assumption. }
    rewrite exec_attempt_final.
    + change (engine (extend evs w)) with (engine w).
      change (noLock (extend evs w)) with (noLock w). rewrite Hnow.
      eexists. split; [reflexivity|]. simpl trace. rewrite Ht. simpl app.
      autorewrite with history. repeat split; try lia. assumption.
    + assumption.
    + left. change (engine (extend evs w)) with (engine w).
      change (noLock (extend evs w)) with (noLock w). rewrite Hnow. reflexivity.
Qed.

(** C1 (what the code does): with a negative [RetryResize], a closure whose
    execution fails with the map-resized failure is not retried at all: the
    entry point returns that failure after this one execution and without
    any map-size adoption.  The comment on [DefaultRetryResize] promises
    indefinite retries for a negative value; the test [maxRetry <= 0] in
    [retryResized] gives up instead. *)
Theorem runRetry_negative_gives_up
    (passed : Z -> Z) (t : txn) (w : World) (fuel : nat) :
  txnlock w = unlocked ->
  RetryResize w < 0 ->
  (forall tr, executions tr = executions (trace w) ->
              engine w tr (txn_call t) = Some MapResized) ->
  (1 <= fuel)%nat ->
  exists evs,
    exec (run_txn passed fuel t) w = Returned (Some MapResized) (extend evs w)
    /\ adoptions evs = 0%nat /\ executions evs = 1%nat.
Proof.
  intros Hl Hneg Hr Hfuel. rewrite run_txn_unfold.
  destruct fuel as [| fuel]; [lia|].
  apply exec_single_attempt; try assumption.
  right; left. unfold effective_retry.
  destruct (Z.eqb_spec (RetryResize w) 0); simpl; lia.
Qed.

(** C2, as amended: when the override [RetryResize] is 0 and the package
    variable [DefaultRetryResize] is 0 as well, a closure whose first
    execution fails with the map-resized failure makes the entry point
    return that failure at once: one execution, no map-size adoption. *)
Theorem runRetry_disabled_when_default_is_zero
    (passed : Z -> Z) (t : txn) (w : World) (fuel : nat) :
  txnlock w = unlocked ->
  RetryResize w = 0 -> DefaultRetryResize w = 0 ->
  (forall tr, executions tr = executions (trace w) ->
              engine w tr (txn_call t) = Some MapResized) ->
  (1 <= fuel)%nat ->
  exists evs,
    exec (run_txn passed fuel t) w = Returned (Some MapResized) (extend evs w)
    /\ adoptions evs = 0%nat /\ executions evs = 1%nat.
Proof.
  intros Hl Hz Hd Hr Hfuel. rewrite run_txn_unfold.
  destruct fuel as [| fuel]; [lia|].
  apply exec_single_attempt; try assumption.
  right; left. unfold effective_retry. rewrite Hz, Hd. simpl. lia.
Qed.

(** C2, as stated, fails: with the override [RetryResize] at 0 the limit is
    the package default 2, so a closure that fails once with the
    map-resized failure is retried; the [View] returns success after one
    map-size adoption. *)
Lemma zero_override_falls_back_to_default :
  let w := fresh 0 None false (resized_first 1) in
  RetryResize w = 0
  /\ engine w (trace w ++ [EvRLock]) (Env_View 7%nat) = Some MapResized
  /\ (exists w',
        exec (View (fun i => i) 5 7%nat) w = Returned None w'
        /\ executions (trace w') = 2%nat /\ adoptions (trace w') = 1%nat)
  /\ ~ (exists evs,
          exec (View (fun i => i) 5 7%nat) w
          = Returned (Some MapResized) (extend evs w)
          /\ adoptions evs = 0%nat).
Proof.
  intros w. split; [reflexivity|]. split; [reflexivity|]. split.
  - eexists. split; [reflexivity|]. split; reflexivity.
  - intros (evs & H & _). discriminate H.
Qed.

(** C3 (what the code does): with [RetryResize = 3] and a closure that
    always fails with the map-resized failure, the entry point returns that
    failure after 4 map-size adoptions and 5 executions, not after 3
    adoptions: [retryResized] gives up when [maxRetry < i], one attempt
    later than the declared number of retries. *)
Theorem runRetry_limit_three_adopts_four_times
    (passed : Z -> Z) (t : txn) (w : World) (fuel : nat) :
  trace w = [] -> txnlock w = unlocked ->
  RetryResize w = 3 ->
  (forall tr, engine w tr (txn_call t) = Some MapResized) ->
  (forall tr, engine w tr (Env_SetMapSize 0) = None) ->
  (5 <= fuel)%nat ->
  exists w',
    exec (run_txn passed fuel t) w = Returned (Some MapResized) w'
    /\ adoptions (trace w') = 4%nat /\ executions (trace w') = 5%nat.
Proof.
  intros Ht Hl Hr Hfail Hadopt Hfuel. rewrite run_txn_unfold.
  destruct (exec_retry_exhausted passed (txn_readonly t) (txn_call t) 3 w fuel)
    as (w' & He & Ha & Hx & _); try assumption; try lia.
  - unfold effective_retry. rewrite Hr. reflexivity.
  - unfold int_max. simpl. lia.
  - apply txn_call_is_txn_call.
  - exists w'. auto.
Qed.

(** C9: a failure of the closure other than the map-resized one is returned
    as it is after that execution, with no further execution and no
    map-size adoption; this holds for the entry point (the first execution)
    and at every index [i] of the loop. *)
Theorem runRetry_other_failure_not_retried
    (passed : Z -> Z) (t : txn) (w : World) (fuel : nat) (i : Z) (e : failure) :
  txnlock w = unlocked ->
  e <> MapResized ->
  (forall tr, executions tr = executions (trace w) ->
              engine w tr (txn_call t) = Some e) ->
  (exists evs,
     exec (run_txn passed (S fuel) t) w = Returned (Some e) (extend evs w)
     /\ adoptions evs = 0%nat /\ executions evs = 1%nat)
  /\
  (exists evs,
     exec (runRetry_from passed (S fuel) (txn_readonly t)
             (perform (Engine (txn_call t))) i) w
     = Returned (Some e) (extend evs w)
     /\ adoptions evs = 0%nat /\ executions evs = 1%nat).
Proof.
  intros Hl Hne Hr.
  assert (Hnot : IsMapResized (Some e) = false)
    by (destruct e; [congruence | reflexivity]).
  split; [rewrite run_txn_unfold |]; apply exec_single_attempt; auto.
Qed.

(** C10 (what the code does): when [retryResized] adopts at attempt [i], it
    waits for 0 if [i <= 0]; otherwise for [DelayRepeatResize] applied to
    whatever index the call [r.getDelayRepeatResize()] hands over (the
    source gives it no argument), or for [DefaultDelayRepeatResize] when no
    delay function is set.  It sleeps only for a positive delay. *)
Theorem retryResized_delay
    (passed : Z -> Z) (i : Z) (w : World) :
  txnlock w = unlocked ->
  0 < effective_retry w -> i <= effective_retry w ->
  (forall tr, engine w tr (Env_SetMapSize 0) = None) ->
  let delay :=
    if 0 <? i then
      match DelayRepeatResize w with
      | Some f => f (passed i)
      | None => DefaultDelayRepeatResize w
      end
    else 0 in
  exec (retryResized passed i (Some MapResized)) w =
  Returned true
    (extend (EvLock :: (if 0 <? delay then [EvSleep delay] else [])
               ++ [EvCall (Env_SetMapSize 0) None; EvUnlock]) w).
Proof.
  intros Hl Hpos Hi Hadopt delay.
  rewrite exec_retryResized_adopt by (try assumption; reflexivity).
  rewrite Hadopt. reflexivity.
Qed.

(** ** The flag-changing proxies *)

(** C7: when the delegated call of [Open], [SetFlags] or [UnsetFlags] fails,
    the proxy returns that failure unchanged and [noLock] is what it was;
    nothing but the call itself happened. *)
Theorem flag_change_failure_leaves_noLock
    (o : flagop) (w : World) (e : failure) :
  engine w (trace w) (flag_call o) = Some e ->
  exists w',
    exec (flag_prog o) w = Returned (Some e) w'
    /\ noLock w' = noLock w
    /\ w' = extend [EvCall (flag_call o) (Some e)] w.
Proof.
  intros H. exists (extend [EvCall (flag_call o) (Some e)] w).
  split; [| split; reflexivity].
  destruct o; simpl in *; rewrite H; reflexivity.
Qed.

(** ** The coordinator *)

(** C8: the first acquisition of a dispatched operation is in exclusive
    mode exactly when the operation is a map-size change, or a read-write
    transaction with [noLock] set when the operation reads it; in every
    other case it is in shared mode. *)
Theorem dispatch_lock_mode (o : operation) (w : World) :
  (acquisition (dispatch o) w = Some Exclusive <->
   is_map_size_change o = true \/ (is_read_write o = true /\ noLock w = true))
  /\
  (acquisition (dispatch o) w = Some Shared <->
   ~ (is_map_size_change o = true \/ (is_read_write o = true /\ noLock w = true))).
Proof.
  destruct o as [size delay | size | readonly fn]; simpl.
  - split; split; intros H; try discriminate; auto. exfalso; apply H; auto.
  - split; split; intros H; try discriminate; auto. exfalso; apply H; auto.
  - destruct (noLock w), readonly; simpl; split; split; intros H;
      try discriminate; try reflexivity; auto;
      try (intros [? | [? ?]]; discriminate);
      try (destruct H as [? | [? ?]]; discriminate);
      try (exfalso; apply H; auto).
Qed.

(** ** The size handed to the engine *)

Lemma adopts_only_sentinel_bind {A B : Type} (m : prog A) (f : A -> prog B) :
  adopts_only_sentinel m -> (forall a, adopts_only_sentinel (f a)) ->
  adopts_only_sentinel (bind m f).
Proof.
  induction m as [a | e | | X e k IH]; simpl; intros Hm Hf; auto.
  destruct Hm as [He Hk]. split; auto.
Qed.

Lemma adopts_only_sentinel_setMapSize size delay :
  adopts_only_sentinel (setMapSize size delay).
Proof.
  unfold setMapSize, when. simpl. split; [exact I|]. intros _.
  destruct (0 <? delay); simpl;
    repeat (split; try exact I; try reflexivity; intros).
Qed.

Lemma adopts_only_sentinel_SetMapSize size :
  adopts_only_sentinel (SetMapSize size).
Proof.
  unfold SetMapSize. apply adopts_only_sentinel_bind; [simpl; auto|]. intros _.
  apply adopts_only_sentinel_bind; [apply adopts_only_sentinel_setMapSize|].
  intros err. simpl. auto.
Qed.

Lemma adopts_only_sentinel_retryResized passed i err :
  adopts_only_sentinel (retryResized passed i err).
Proof.
  unfold retryResized. destruct (negb (IsMapResized err)); [exact I|].
  apply adopts_only_sentinel_bind.
  - unfold getRetryResize. simpl. split; [exact I|]. intros rr.
    destruct (negb (rr =? 0)); simpl; auto.
  - intros m. destruct (m <=? 0); [exact I|]. destruct (m <? i); [exact I|].
    apply adopts_only_sentinel_bind.
    + destruct (0 <? i); [| exact I]. unfold getDelayRepeatResize. simpl.
      split; [exact I|]. intros [f |]; simpl; auto.
    + intros d.
      apply adopts_only_sentinel_bind; [apply adopts_only_sentinel_setMapSize|].
      intros [e |]; exact I.
Qed.

(** The retry driver too asks the engine for the sentinel size only. *)
Lemma adopts_only_sentinel_run_txn passed fuel t :
  adopts_only_sentinel (run_txn passed fuel t).
Proof.
  rewrite run_txn_unfold. generalize 0 as i.
  induction fuel as [| fuel IH]; intros i; [exact I|].
  rewrite runRetry_from_S. apply adopts_only_sentinel_bind.
  - unfold run. simpl. split; [exact I|]. intros nl.
    destruct (nl && negb (txn_readonly t)); simpl;
      (split; [exact I|]; intros _; split; [destruct t; exact I|]; intros r;
       split; [exact I|]; intros _; exact I).
  - intros err.
    apply adopts_only_sentinel_bind; [apply adopts_only_sentinel_retryResized|].
    intros again. destruct (negb again); [exact I | apply IH].
Qed.

(** C5: whatever size [s] the caller gives, the map-size path hands the
    sentinel 0 to the engine's [SetMapSize]: a [setMapSize s delay] that
    gets the lock makes exactly one such call, with size 0; no path of
    [setMapSize] or of the public [SetMapSize] makes one with another size;
    and both programs are the same for every [s]. *)
Theorem map_size_path_passes_sentinel (size delay : Z) (w : World) :
  txnlock w = unlocked ->
  (exists r evs,
     exec (setMapSize size delay) w = Returned r (extend evs w)
     /\ adopted_sizes evs = [0])
  /\ adopts_only_sentinel (setMapSize size delay)
  /\ adopts_only_sentinel (SetMapSize size)
  /\ setMapSize size delay = setMapSize 0 delay
  /\ SetMapSize size = SetMapSize 0.
Proof.
  intros Hl. split; [| split; [| split; [| split]]].
  - eexists. eexists. rewrite exec_setMapSize by assumption.
    split; [reflexivity|].
    unfold adoption_events, wait_events. destruct (0 <? delay); reflexivity.
  - apply adopts_only_sentinel_setMapSize.
  - apply adopts_only_sentinel_SetMapSize.
  - reflexivity.
  - reflexivity.
Qed.

(** ** Goroutines sharing the lock *)

Import Pool.

Lemma disciplined_bind {A B : Type} (m : prog A) (f : A -> prog B) h :
  disciplined h m -> (forall a, disciplined Nothing (f a)) ->
  disciplined h (bind m f).
Proof.
  revert h. induction m as [a | e | | X e k IH]; simpl; intros h Hm Hf; auto.
  - subst. apply Hf.
  - destruct (transition e h); auto.
Qed.

Lemma disciplined_setMapSize size delay :
  disciplined Nothing (setMapSize size delay).
Proof.
  unfold setMapSize, when. simpl. intros _.
  destruct (0 <? delay); simpl; intros; reflexivity.
Qed.

Lemma disciplined_SetMapSize size : disciplined Nothing (SetMapSize size).
Proof. simpl. intros _. exact I. Qed.

Lemma disciplined_run_call ro c :
  disciplined Nothing (run ro (perform (Engine c))).
Proof.
  unfold run. simpl. intros nl.
  destruct (nl && negb ro); simpl; intros; reflexivity.
Qed.

Lemma disciplined_retryResized passed i err :
  disciplined Nothing (retryResized passed i err).
Proof.
  unfold retryResized. destruct (negb (IsMapResized err)); [reflexivity|].
  apply disciplined_bind.
  - unfold getRetryResize. simpl. intros rr.
    destruct (negb (rr =? 0)); simpl; auto.
  - intros m. destruct (m <=? 0); [reflexivity|].
    destruct (m <? i); [reflexivity|].
    apply disciplined_bind.
    + destruct (0 <? i); [| reflexivity]. unfold getDelayRepeatResize. simpl.
      intros [f |]; simpl; auto.
    + intros d. apply disciplined_bind; [apply disciplined_setMapSize|].
      intros [e |]; simpl; auto.
Qed.

Lemma disciplined_run_txn passed fuel t :
  disciplined Nothing (run_txn passed fuel t).
Proof.
  rewrite run_txn_unfold. generalize 0 as i.
  induction fuel as [| fuel IH]; intros i; [exact I|].
  rewrite runRetry_from_S. apply disciplined_bind; [apply disciplined_run_call|].
  intros err. apply disciplined_bind; [apply disciplined_retryResized|].
  intros again. destruct (negb again); [reflexivity | apply IH].
Qed.

Lemma disciplined_flag_prog o : disciplined Nothing (flag_prog o).
Proof.
  destruct o; simpl; intros [e |]; simpl; auto;
    unfold when; destruct (has_flag _ _); simpl; auto.
Qed.

Lemma update_same i g gs : update i g gs i = g.
Proof. unfold update. rewrite Nat.eqb_refl. reflexivity. Qed.

Lemma update_other i j g gs : j <> i -> update i g gs j = gs j.
Proof. unfold update. intros H. apply Nat.eqb_neq in H. rewrite H. reflexivity. Qed.

Lemma consistent_update w w' gs i g' :
  consistent (w, gs) ->
  disciplined (holds g') (code g') ->
  (forall j, j <> i -> holds (gs j) = HeldExclusive -> writer (txnlock w') = true) ->
  (holds g' = HeldExclusive ->
   writer (txnlock w') = true /\ forall j, j <> i -> holds (gs j) <> HeldExclusive) ->
  consistent (w', update i g' gs).
Proof.
  intros (Hd & Hw & Hu) Hg Hothers Hself. split; [| split].
  - intros j. destruct (Nat.eq_dec j i) as [-> | Hn].
    + rewrite update_same. assumption.
    + rewrite update_other by assumption. apply Hd.
  - intros j. destruct (Nat.eq_dec j i) as [-> | Hn].
    + rewrite update_same. intros H. apply Hself; assumption.
    + rewrite update_other by assumption. apply Hothers; assumption.
  - intros j1 j2.
    destruct (Nat.eq_dec j1 i) as [-> | Hn1];
      destruct (Nat.eq_dec j2 i) as [-> | Hn2];
      rewrite ?update_same, ?update_other by assumption; auto.
    + intros H1 H2. exfalso. destruct (Hself H1) as [_ Hno].
      apply (Hno j2); assumption.
    + intros H1 H2. exfalso. destruct (Hself H2) as [_ Hno].
      apply (Hno j1); assumption.
Qed.

(** Every step keeps the pool consistent. *)
Lemma pstep_consistent s s' : consistent s -> pstep s s' -> consistent s'.
Proof.
  intros Hc Hs. destruct Hs as [w w' gs i g' Hstep].
  pose proof Hc as (Hd & Hw & Hu).
  pose proof (Hd i) as Hdi. unfold step_goroutine in Hstep.
  destruct (code (gs i)) as [a | a | | X e k]; try discriminate.
  destruct (handle e w) as [x w1 | |] eqn:Hh; try discriminate.
  injection Hstep as <- <-. simpl in Hdi.
  apply (consistent_update w); [assumption | | |]; unfold after; simpl.
  - destruct (transition e (holds (gs i))) eqn:Ht; try contradiction.
    + apply Hdi.
    + (* an acquisition by the holder does not go through *)
      exfalso. destruct e; simpl in Ht; destruct (holds (gs i)) eqn:Hi;
        try discriminate; simpl in Hh; rewrite (Hw i Hi) in Hh; discriminate.
  - intros j Hn Hj. pose proof (Hw j Hj) as Hwr.
    destruct e; simpl in Hh; try (injection Hh as _ <-; exact Hwr).
    + rewrite Hwr in Hh. discriminate.
    + destruct (holds (gs i)) eqn:Hi; simpl in Hdi; try contradiction.
      exfalso. apply Hn. apply Hu; assumption.
    + rewrite Hwr in Hh. discriminate.
    + destruct (readers (txnlock w)); [discriminate|].
      injection Hh as _ <-. exact Hwr.
  - intros Hx.
    destruct e; simpl in Hh, Hx;
      try (injection Hh as _ <-; split;
           [ apply (Hw i Hx)
           | intros j Hn Hj; apply Hn; apply Hu; assumption ]).
    + destruct (writer (txnlock w)) eqn:Hwr; [discriminate|].
      destruct (negb (Nat.eqb (readers (txnlock w)) 0)); [discriminate|].
      simpl in Hh. injection Hh as _ <-. split; [reflexivity|].
      intros j _ Hj. discriminate (Hw j Hj).
    + destruct (holds (gs i)); simpl in Hx; discriminate.
    + destruct (holds (gs i)) eqn:Hi; simpl in Hx; try discriminate.
      rewrite (Hw i Hi) in Hh. discriminate.
    + destruct (holds (gs i)) eqn:Hi; simpl in Hx, Hdi; try discriminate.
      contradiction.
Qed.

(** The goroutine of [SetMapSize] takes one step at most, its own [Lock]. *)
Lemma SetMapSize_states size s0 i :
  consistent s0 ->
  snd s0 i = mkGoroutine Nothing (SetMapSize size) ->
  forall s, reaches s0 s ->
    consistent s /\
    (snd s i = mkGoroutine Nothing (SetMapSize size)
     \/ snd s i = mkGoroutine HeldExclusive (SetMapSize_locked size)).
Proof.
  intros Hc0 Hi s Hr.
  induction Hr as [s | s1 s2 s3 Hr IH Hs].
  - split; [assumption | left; assumption].
  - specialize (IH Hc0 Hi). destruct IH as [Hc2 Hg2].
    split; [apply (pstep_consistent s2); assumption|].
    destruct Hs as [w w' gs j g' Hstep]. simpl in *.
    destruct (Nat.eq_dec i j) as [<- | Hn].
    + rewrite update_same. destruct Hg2 as [Hg | Hg]; rewrite Hg in Hstep.
      * right. unfold step_goroutine in Hstep. simpl in Hstep.
        destruct (writer (txnlock w) || negb (Nat.eqb (readers (txnlock w)) 0));
          [discriminate|].
        injection Hstep as _ <-. reflexivity.
      * exfalso. destruct Hc2 as (_ & Hw & _).
        assert (Hwr : writer (txnlock w) = true)
          by (apply (Hw i); rewrite Hg; reflexivity).
        unfold step_goroutine in Hstep. simpl in Hstep.
        rewrite Hwr in Hstep. discriminate.
    + rewrite update_other by auto. exact Hg2.
Qed.

(** C4: a goroutine that calls the public [SetMapSize], among any number
    of goroutines that use the lock as the methods of [Env] do, takes the
    exclusive lock (its [Lock] goes through when the lock is free; alone,
    the call ends in a deadlock) and from then on stands before the [Lock]
    of [setMapSize], which cannot go through while it holds the lock
    itself.  In every state the pool can reach, its next effect is a
    [Lock]: it is never at the engine's [SetMapSize] and never at its
    return. *)
Theorem SetMapSize_never_returns
    (size : Z) (w0 : World) (gs0 : pool) (i : nat) :
  txnlock w0 = unlocked ->
  (forall j, holds (gs0 j) = Nothing /\ disciplined Nothing (code (gs0 j))) ->
  gs0 i = mkGoroutine Nothing (SetMapSize size) ->
  exec (SetMapSize size) w0
  = Deadlock (log EvLock (set_txnlock (mkRWMutex true 0) w0))
  /\ pstep (w0, gs0)
       (log EvLock (set_txnlock (mkRWMutex true 0) w0),
        update i (mkGoroutine HeldExclusive (SetMapSize_locked size)) gs0)
  /\ forall w gs, reaches (w0, gs0) (w, gs) ->
       (gs i = mkGoroutine Nothing (SetMapSize size)
        \/ (gs i = mkGoroutine HeldExclusive (SetMapSize_locked size)
            /\ handle Lock w = Wait))
       /\ (exists k, code (gs i) = Vis Lock k).
Proof.
  intros Hfree Hall Hi.
  split; [apply exec_SetMapSize; assumption|]. split.
  - apply pstep_at. rewrite Hi. unfold step_goroutine. simpl.
    rewrite Hfree. reflexivity.
  - intros w gs Hr.
    assert (Hc0 : consistent (w0, gs0)).
    { split; [| split].
      - intros j. destruct (Hall j) as [-> Hd]. exact Hd.
      - intros j Hj. destruct (Hall j) as [Hn _]. congruence.
      - intros j1 j2 Hj. destruct (Hall j1) as [Hn _]. congruence. }
    destruct (SetMapSize_states size (w0, gs0) i Hc0 Hi _ Hr) as [Hc [Hg | Hg]];
      simpl in Hg.
    + split; [left; assumption|]. rewrite Hg. eexists. reflexivity.
    + split.
      * right. split; [assumption|]. destruct Hc as (_ & Hw & _).
        simpl. rewrite (Hw i); [reflexivity | rewrite Hg; reflexivity].
      * rewrite Hg. eexists. reflexivity.
Qed.

(** * The theorems at concrete inputs *)

(** C6 at [k = 2]: an update in no-lock mode under [RetryResize = 3] whose
    closure fails twice and then succeeds. *)
Lemma runRetry_succeeds_after_k_failures_witness :
  exists w',
    exec (run_txn (fun i => i) 5 (TxnUpdate 7%nat))
         (fresh 3 None true (resized_first 2))
    = Returned None w'
    /\ adoptions (trace w') = 2%nat /\ executions (trace w') = 3%nat
    /\ txnlock w' = unlocked.
Proof.
  apply (runRetry_succeeds_after_k_failures (fun i => i) 2 (TxnUpdate 7%nat)
           (fresh 3 None true (resized_first 2)) 5).
  - reflexivity.
  - reflexivity.
  - reflexivity.
  - unfold int_max. simpl. lia.
  - intros tr H. simpl. unfold resized_first. simpl.
    apply Nat.ltb_lt in H. rewrite H. reflexivity.
  - intros tr H. simpl. unfold resized_first. simpl. rewrite H. reflexivity.
  - intros tr. reflexivity.
  - lia.
Defined.

(** C1 at [RetryResize = -1]: a view whose closure fails once and would
    then succeed. *)
Lemma runRetry_negative_gives_up_witness :
  exists evs,
    exec (run_txn (fun i => i) 3 (TxnView 7%nat))
         (fresh (-1) None false (resized_first 1))
    = Returned (Some MapResized)
        (extend evs (fresh (-1) None false (resized_first 1)))
    /\ adoptions evs = 0%nat /\ executions evs = 1%nat.
Proof.
  apply (runRetry_negative_gives_up (fun i => i) (TxnView 7%nat)
           (fresh (-1) None false (resized_first 1)) 3).
  - reflexivity.
  - simpl. lia.
  - intros tr H. simpl. unfold resized_first. simpl. rewrite H. reflexivity.
  - lia.
Defined.

(** C2, as amended, with both the override and the default at 0. *)
Lemma runRetry_disabled_when_default_is_zero_witness :
  exists evs,
    exec (run_txn (fun i => i) 3 (TxnView 7%nat))
         (fresh_with_default 0 0 (resized_first 1))
    = Returned (Some MapResized)
        (extend evs (fresh_with_default 0 0 (resized_first 1)))
    /\ adoptions evs = 0%nat /\ executions evs = 1%nat.
Proof.
  apply (runRetry_disabled_when_default_is_zero (fun i => i) (TxnView 7%nat)
           (fresh_with_default 0 0 (resized_first 1)) 3).
  - reflexivity.
  - reflexivity.
  - reflexivity.
  - intros tr H. simpl. unfold resized_first. simpl. rewrite H. reflexivity.
  - lia.
Defined.

(** C3 on an update whose closure always fails. *)
Lemma runRetry_limit_three_adopts_four_times_witness :
  exists w',
    exec (run_txn (fun i => i) 6 (TxnUpdate 7%nat))
         (fresh 3 None false resized_always)
    = Returned (Some MapResized) w'
    /\ adoptions (trace w') = 4%nat /\ executions (trace w') = 5%nat.
Proof.
  apply (runRetry_limit_three_adopts_four_times (fun i => i) (TxnUpdate 7%nat)
           (fresh 3 None false resized_always) 6).
  - reflexivity.
  - reflexivity.
  - reflexivity.
  - intros tr. reflexivity.
  - intros tr. reflexivity.
  - lia.
Defined.

(** C9 on a locked update that fails with another failure, at the entry
    point and at index 1 of the loop. *)
Lemma runRetry_other_failure_not_retried_witness :
  (exists evs,
     exec (run_txn (fun i => i) 4 (TxnUpdateLocked 7%nat))
          (fresh 0 None false (failing_with (Failure 5)))
     = Returned (Some (Failure 5))
         (extend evs (fresh 0 None false (failing_with (Failure 5))))
     /\ adoptions evs = 0%nat /\ executions evs = 1%nat)
  /\
  (exists evs,
     exec (runRetry_from (fun i => i) 4 (txn_readonly (TxnUpdateLocked 7%nat))
             (perform (Engine (txn_call (TxnUpdateLocked 7%nat)))) 1)
          (fresh 0 None false (failing_with (Failure 5)))
     = Returned (Some (Failure 5))
         (extend evs (fresh 0 None false (failing_with (Failure 5))))
     /\ adoptions evs = 0%nat /\ executions evs = 1%nat).
Proof.
  apply (runRetry_other_failure_not_retried (fun i => i) (TxnUpdateLocked 7%nat)
           (fresh 0 None false (failing_with (Failure 5))) 3 1 (Failure 5)).
  - reflexivity.
  - discriminate.
  - intros tr H. reflexivity.
Defined.

(** C10 at attempt 1 with a delay function of [retry] milliseconds, the
    index handed over being the attempt index: one millisecond. *)
Lemma retryResized_delay_witness :
  exec (retryResized (fun i => i) 1 (Some MapResized))
       (fresh 2 (Some linear_delay) false resized_always)
  = Returned true
      (extend [EvLock; EvSleep 1000000; EvCall (Env_SetMapSize 0) None; EvUnlock]
         (fresh 2 (Some linear_delay) false resized_always)).
Proof.
  refine (retryResized_delay (fun i => i) 1
            (fresh 2 (Some linear_delay) false resized_always) _ _ _ _).
  - reflexivity.
  - reflexivity.
  - discriminate.
  - intros tr. reflexivity.
Defined.

(** C7 on [SetFlags(lmdb.NoLock)] refused by the engine. *)
Lemma flag_change_failure_leaves_noLock_witness :
  exists w',
    exec (flag_prog (FlagSet NoLock))
         (fresh 0 None false (failing_with (Failure 22)))
    = Returned (Some (Failure 22)) w'
    /\ noLock w' = noLock (fresh 0 None false (failing_with (Failure 22)))
    /\ w' = extend [EvCall (flag_call (FlagSet NoLock)) (Some (Failure 22))]
              (fresh 0 None false (failing_with (Failure 22))).
Proof.
  apply (flag_change_failure_leaves_noLock (FlagSet NoLock)
           (fresh 0 None false (failing_with (Failure 22))) (Failure 22)).
  reflexivity.
Defined.

(** C5 on [setMapSize(4096, 0)]. *)
Lemma map_size_path_passes_sentinel_witness :
  (exists r evs,
     exec (setMapSize 4096 0) (fresh 0 None false resized_always)
     = Returned r (extend evs (fresh 0 None false resized_always))
     /\ adopted_sizes evs = [0])
  /\ adopts_only_sentinel (setMapSize 4096 0)
  /\ adopts_only_sentinel (SetMapSize 4096)
  /\ setMapSize 4096 0 = setMapSize 0 0
  /\ SetMapSize 4096 = SetMapSize 0.
Proof.
  apply (map_size_path_passes_sentinel 4096 0
           (fresh 0 None false resized_always)).
  reflexivity.
Defined.

(** C4 on a pool where the first goroutine calls [SetMapSize] while two
    others run transactions. *)
Lemma SetMapSize_never_returns_witness :
  let w0 := fresh 0 None true resized_always in
  let gs0 := three_goroutines (fun i => i) in
  exec (SetMapSize 1048576) w0
  = Deadlock (log EvLock (set_txnlock (mkRWMutex true 0) w0))
  /\ pstep (w0, gs0)
       (log EvLock (set_txnlock (mkRWMutex true 0) w0),
        update 0 (mkGoroutine HeldExclusive (SetMapSize_locked 1048576)) gs0)
  /\ forall w gs, reaches (w0, gs0) (w, gs) ->
       (gs 0%nat = mkGoroutine Nothing (SetMapSize 1048576)
        \/ (gs 0%nat = mkGoroutine HeldExclusive (SetMapSize_locked 1048576)
            /\ handle Lock w = Wait))
       /\ (exists k, code (gs 0%nat) = Vis Lock k).
Proof.
  apply (SetMapSize_never_returns 1048576 (fresh 0 None true resized_always)
           (three_goroutines (fun i => i)) 0).
  - reflexivity.
  - intros j. destruct j as [| [| [| j]]]; split; try reflexivity.
    + apply disciplined_SetMapSize.
    + apply (disciplined_run_txn (fun i => i) 3 (TxnUpdate 7%nat)).
    + apply (disciplined_run_txn (fun i => i) 3 (TxnView 8%nat)).
  - reflexivity.
Defined.

(** * Further properties *)

(** ** The retry driver, whatever the engine answers *)

Section DriverInGeneral.

Variable passed : Z -> Z.
(** One iteration whose attempt fails with the map-resized failure and
    whose adoption fails: the driver panics with the failure of the
    adoption. *)
Lemma exec_attempt_panic fuel ro c i w e :
  txnlock w = unlocked ->
  let x := noLock w && negb ro in
  let w1 := extend (attempt_events x c (Some MapResized)) w in
  let d := adoption_delay passed i w in
  engine w (trace w ++ [acquire_event x]) c = Some MapResized ->
  engine w (trace w1 ++ EvLock :: wait_events d) (Env_SetMapSize 0) = Some e ->
  0 < effective_retry w -> i <= effective_retry w ->
  exec (runRetry_from passed (S fuel) ro (perform (Engine c)) i) w =
  Panicked e
    (extend (attempt_events x c (Some MapResized) ++ adoption_events d (Some e)) w).
Proof.
  intros Hl x w1 d Hr Ha Hpos Hi. rewrite runRetry_from_S.
  rewrite exec_bind, exec_run_call by assumption. fold x. rewrite Hr. fold w1.
  rewrite exec_bind.
  rewrite (exec_retryResized_adopt passed i (Some MapResized) w1);
    try assumption; try reflexivity.
  change (adoption_delay passed i w1) with d. change (engine w1) with (engine w).
  rewrite Ha. unfold w1. rewrite extend_extend. reflexivity.
Qed.

(** However the engine answers, the loop ends holding no lock, and the
    executions and adoptions it made are tied. *)
Lemma loop_outcome ro c :
  is_txn_call c = true ->
  forall fuel i w,
    txnlock w = unlocked ->
    exists evs,
      match exec (runRetry_from passed fuel ro (perform (Engine c)) i) w with
      | Returned _ w' =>
          w' = extend evs w /\ executions evs = S (adoptions evs)
      | Panicked _ w' =>
          w' = extend evs w /\ executions evs = adoptions evs
          /\ (0 < adoptions evs)%nat
      | Unfinished w' =>
          w' = extend evs w /\ executions evs = fuel /\ adoptions evs = fuel
      | Deadlock _ => False
      | Fatal _ => False
      end.
Proof.
  intros Hc. induction fuel as [| fuel IH]; intros i w Hl.
  - exists []. simpl. rewrite extend_nil. auto.
  - set (x := noLock w && negb ro).
    set (r := engine w (trace w ++ [acquire_event x]) c).
    destruct (IsMapResized r) eqn:Hr.
    + destruct (Z.leb_spec (effective_retry w) 0) as [Hle | Hpos].
      { exists (attempt_events x c r).
        rewrite exec_attempt_final by (try assumption; right; left; assumption).
        fold x r. split; [reflexivity|]. autorewrite with history. reflexivity. }
      destruct (Z.ltb_spec (effective_retry w) i) as [Hlt | Hge].
      { exists (attempt_events x c r).
        rewrite exec_attempt_final by (try assumption; right; right; assumption).
        fold x r. split; [reflexivity|]. autorewrite with history. reflexivity. }
      assert (Hres : r = Some MapResized).
      { destruct r as [[| code] |]; try discriminate. reflexivity. }
      set (w1 := extend (attempt_events x c (Some MapResized)) w).
      set (d := adoption_delay passed i w).
      destruct (engine w (trace w1 ++ EvLock :: wait_events d) (Env_SetMapSize 0))
        as [e |] eqn:Ha.
      * exists (attempt_events x c (Some MapResized) ++ adoption_events d (Some e)).
        rewrite (exec_attempt_panic fuel ro c i w e); try assumption.
        fold x d. split; [reflexivity|]. autorewrite with history. lia.
      * set (evs1 := attempt_events x c (Some MapResized) ++ adoption_events d None).
        destruct (IH (wrap_int (i + 1)) (extend evs1 w)) as [evs Hevs];
          [assumption|].
        exists (evs1 ++ evs).
        rewrite exec_attempt_retry; try assumption. fold x d evs1.
        destruct (exec _ (extend evs1 w)) as [a w' | e w' | w' | w' | w'];
          try contradiction.
        -- destruct Hevs as [-> Hn]. rewrite extend_extend. split; [reflexivity|].
           unfold evs1. autorewrite with history. lia.
        -- destruct Hevs as (-> & Hn & Hp). rewrite extend_extend.
           split; [reflexivity|]. unfold evs1. autorewrite with history. lia.
        -- destruct Hevs as (-> & Hn & Hp). rewrite extend_extend.
           split; [reflexivity|]. unfold evs1. autorewrite with history. lia.
    + exists (attempt_events x c r).
      rewrite exec_attempt_final by (try assumption; left; assumption).
      fold x r. split; [reflexivity|]. autorewrite with history. reflexivity.
Qed.
(** With [n] indices left below the limit, the loop makes [n + 1]
    executions at most. *)
Lemma loop_bounded ro c :
  is_txn_call c = true ->
  forall n i w fuel,
    txnlock w = unlocked ->
    0 <= i -> i + Z.of_nat n = effective_retry w + 1 ->
    effective_retry w < int_max ->
    (n < fuel)%nat ->
    exists evs,
      match exec (runRetry_from passed fuel ro (perform (Engine c)) i) w with
      | Returned _ w' =>
          w' = extend evs w
          /\ (executions evs <= S n)%nat /\ (adoptions evs <= n)%nat
      | Panicked _ w' =>
          w' = extend evs w
          /\ (executions evs <= n)%nat /\ (adoptions evs <= n)%nat
      | _ => False
      end.
Proof.
  intros Hc. induction n as [| n IH]; intros i w fuel Hl Hi Hn Hmax Hfuel;
    (destruct fuel as [| fuel]; [lia|]);
    set (x := noLock w && negb ro);
    set (r := engine w (trace w ++ [acquire_event x]) c).
  - exists (attempt_events x c r).
    rewrite exec_attempt_final by (try assumption; right; right; lia).
    fold x r. split; [reflexivity|]. autorewrite with history. lia.
  - destruct (IsMapResized r) eqn:Hr.
    + destruct (Z.leb_spec (effective_retry w) 0) as [Hle | Hpos].
      { exists (attempt_events x c r).
        rewrite exec_attempt_final by (try assumption; right; left; assumption).
        fold x r. split; [reflexivity|]. autorewrite with history. lia. }
      assert (Hres : r = Some MapResized).
      { destruct r as [[| code] |]; try discriminate. reflexivity. }
      set (w1 := extend (attempt_events x c (Some MapResized)) w).
      set (d := adoption_delay passed i w).
      destruct (engine w (trace w1 ++ EvLock :: wait_events d) (Env_SetMapSize 0))
        as [e |] eqn:Ha.
      * exists (attempt_events x c (Some MapResized) ++ adoption_events d (Some e)).
        rewrite (exec_attempt_panic fuel ro c i w e); try assumption; try lia.
        fold x d. split; [reflexivity|]. autorewrite with history. lia.
      * set (evs1 := attempt_events x c (Some MapResized) ++ adoption_events d None).
        destruct (IH (i + 1) (extend evs1 w) fuel) as [evs Hevs];
          try assumption; try lia.
        { change (effective_retry (extend evs1 w)) with (effective_retry w). lia. }
        exists (evs1 ++ evs).
        rewrite exec_attempt_retry; try assumption; try lia. fold x d evs1.
        rewrite wrap_int_id by (unfold int_min; lia).
        destruct (exec _ (extend evs1 w)) as [a w' | e w' | w' | w' | w'];
          try contradiction.
        -- destruct Hevs as (-> & Hx & Hy). rewrite extend_extend.
           split; [reflexivity|]. unfold evs1. autorewrite with history. lia.
        -- destruct Hevs as (-> & Hx & Hy). rewrite extend_extend.
           split; [reflexivity|]. unfold evs1. autorewrite with history. lia.
    + exists (attempt_events x c r).
      rewrite exec_attempt_final by (try assumption; left; assumption).
      fold x r. split; [reflexivity|]. autorewrite with history. lia.
Qed.


End DriverInGeneral.

(** X6: a transaction entry point started with the lock free never ends
    waiting for the lock; however it ends (return, panic, fuel run out),
    [txnlock] is free again and [noLock] is what it was. *)
Theorem run_txn_releases_lock
    (passed : Z -> Z) (fuel : nat) (t : txn) (w : World) :
  txnlock w = unlocked ->
  let o := exec (run_txn passed fuel t) w in
  blocked o = false
  /\ txnlock (final_world o) = unlocked
  /\ noLock (final_world o) = noLock w.
Proof.
  intros Hl. cbv zeta. rewrite run_txn_unfold.
  destruct (loop_outcome passed (txn_readonly t) (txn_call t)
              (txn_call_is_txn_call t) fuel 0 w Hl) as [evs H].
  destruct (exec _ w) as [a w' | e w' | w' | w' | w'];
    try contradiction; destruct H as [-> _]; simpl; auto.
Qed.

(** X7: whatever the engine answers, an entry point that returns has
    executed the closure exactly once more than it adopted a map size; one
    that panics has made as many executions as adoptions, at least one. *)
Theorem run_txn_executions_and_adoptions
    (passed : Z -> Z) (fuel : nat) (t : txn) (w : World) :
  txnlock w = unlocked ->
  exists evs,
    final_world (exec (run_txn passed fuel t) w) = extend evs w
    /\ match exec (run_txn passed fuel t) w with
       | Returned _ _ => executions evs = S (adoptions evs)
       | Panicked _ _ =>
           executions evs = adoptions evs /\ (0 < adoptions evs)%nat
       | _ => executions evs = fuel /\ adoptions evs = fuel
       end.
Proof.
  intros Hl. rewrite run_txn_unfold.
  destruct (loop_outcome passed (txn_readonly t) (txn_call t)
              (txn_call_is_txn_call t) fuel 0 w Hl) as [evs H].
  exists evs.
  destruct (exec _ w) as [a w' | e w' | w' | w' | w'];
    try contradiction; simpl; intuition.
Qed.

(** X8: under a positive limit, when the closure fails with the
    map-resized failure and the engine then refuses to adopt the map size
    with [e], the entry point panics with [e]: one execution, one adoption,
    and the lock is free again. *)
Theorem run_txn_panics_when_adoption_fails
    (passed : Z -> Z) (fuel : nat) (t : txn) (w : World) (e : failure) :
  txnlock w = unlocked ->
  0 < effective_retry w ->
  (forall tr, executions tr = executions (trace w) ->
              engine w tr (txn_call t) = Some MapResized) ->
  (forall tr, engine w tr (Env_SetMapSize 0) = Some e) ->
  exists evs,
    exec (run_txn passed (S fuel) t) w = Panicked e (extend evs w)
    /\ executions evs = 1%nat /\ adoptions evs = 1%nat
    /\ txnlock (extend evs w) = unlocked.
Proof.
  intros Hl Hpos Hr Ha. rewrite run_txn_unfold.
  pose proof (txn_call_is_txn_call t) as Hc.
  eexists. split.
  - apply exec_attempt_panic; try assumption; try lia.
    + apply Hr. apply executions_acquire.
    + apply Ha.
  - autorewrite with history. auto.
Qed.

(** X9: for every positive limit [m] below the largest [int], be it the
    override or, with the override at 0, the package default, a closure that
    always fails with the map-resized failure is executed [m + 2] times and
    the map size adopted [m + 1] times before the failure is returned. *)
Theorem run_txn_exhausts_after_limit_plus_one
    (passed : Z -> Z) (m : nat) (t : txn) (w : World) (fuel : nat) :
  trace w = [] -> txnlock w = unlocked ->
  effective_retry w = Z.of_nat m -> (0 < m)%nat -> Z.of_nat m < int_max ->
  (forall tr, engine w tr (txn_call t) = Some MapResized) ->
  (forall tr, engine w tr (Env_SetMapSize 0) = None) ->
  (m + 2 <= fuel)%nat ->
  exists w',
    exec (run_txn passed fuel t) w = Returned (Some MapResized) w'
    /\ adoptions (trace w') = S m /\ executions (trace w') = S (S m).
Proof.
  intros Ht Hl Hm Hpos Hmax Hfail Hadopt Hfuel. rewrite run_txn_unfold.
  destruct (exec_retry_exhausted passed (txn_readonly t) (txn_call t) m w fuel)
    as (w' & He & Ha & Hx & _); try assumption.
  - apply txn_call_is_txn_call.
  - exists w'. auto.
Qed.

(** X10: whatever the engine answers, under a limit below the largest
    [int] the loop of [runRetry] ends, by a return or a panic, within
    [limit + 2] executions and [limit + 1] adoptions (a limit of 0 or less
    counting as 0). *)
Theorem runRetry_ends_within_limit
    (passed : Z -> Z) (t : txn) (w : World) (fuel : nat) :
  txnlock w = unlocked ->
  effective_retry w < int_max ->
  (Z.to_nat (effective_retry w) + 2 <= fuel)%nat ->
  exists evs,
    ((exists r, exec (run_txn passed fuel t) w = Returned r (extend evs w))
     \/ (exists e, exec (run_txn passed fuel t) w = Panicked e (extend evs w)))
    /\ (executions evs <= Z.to_nat (effective_retry w) + 2)%nat
    /\ (adoptions evs <= Z.to_nat (effective_retry w) + 1)%nat.
Proof.
  intros Hl Hmax Hfuel. rewrite run_txn_unfold.
  pose proof (txn_call_is_txn_call t) as Hc.
  destruct (Z.leb_spec (effective_retry w) 0) as [Hle | Hpos].
  - destruct fuel as [| fuel]; [lia|].
    eexists. split.
    + left. eexists. apply exec_attempt_final; [assumption|].
      right; left; assumption.
    + autorewrite with history. lia.
  - destruct (loop_bounded passed (txn_readonly t) (txn_call t) Hc
                (Z.to_nat (effective_retry w) + 1) 0 w fuel)
      as [evs Hevs]; try assumption; try lia.
    exists evs.
    destruct (exec _ w) as [a w' | e w' | w' | w' | w']; try contradiction.
    + destruct Hevs as (-> & Hx & Ha). split; [left; eexists; reflexivity | lia].
    + destruct Hevs as (-> & Hx & Ha). split; [right; eexists; reflexivity | lia].
Qed.

(** X11: with no [DelayRepeatResize] set, an adoption at any attempt after
    the first sleeps for the positive [DefaultDelayRepeatResize] between
    taking the exclusive lock and calling the engine, whatever index the
    call in [retryResized] hands over. *)
Theorem retryResized_default_delay (passed : Z -> Z) (i : Z) (w : World) :
  txnlock w = unlocked ->
  DelayRepeatResize w = None ->
  0 < i -> i <= effective_retry w ->
  0 < DefaultDelayRepeatResize w ->
  (forall tr, engine w tr (Env_SetMapSize 0) = None) ->
  exec (retryResized passed i (Some MapResized)) w =
  Returned true
    (extend [EvLock; EvSleep (DefaultDelayRepeatResize w);
             EvCall (Env_SetMapSize 0) None; EvUnlock] w).
Proof.
  intros Hl Hd Hi Hm Hpos Hadopt.
  rewrite exec_retryResized_adopt by (try assumption; try reflexivity; lia).
  rewrite Hadopt.
  unfold adoption_delay, effective_delay, adoption_events, wait_events.
  rewrite Hd. apply Z.ltb_lt in Hi, Hpos. rewrite Hi, Hpos. reflexivity.
Qed.

(** X5: the first acquisition of each entry point: [View] takes the shared
    mode whatever [noLock] is; [Update] and [UpdateLocked] take the
    exclusive mode exactly when [noLock] is set; [RunTxn] takes the
    exclusive mode exactly when [noLock] is set and its flags lack
    [lmdb.Readonly]. *)
Theorem entry_point_lock_mode
    (passed : Z -> Z) (fuel : nat) (flags : Z) (op : TxnOp) (w : World) :
  acquisition (View passed (S fuel) op) w = Some Shared
  /\ acquisition (Update passed (S fuel) op) w
     = Some (if noLock w then Exclusive else Shared)
  /\ acquisition (UpdateLocked passed (S fuel) op) w
     = Some (if noLock w then Exclusive else Shared)
  /\ acquisition (RunTxn passed (S fuel) flags op) w
     = Some (if noLock w && (Z.land flags Readonly =? 0)
             then Exclusive else Shared).
Proof.
  unfold View, Update, UpdateLocked, RunTxn, runRetry, has_flag. simpl.
  destruct (noLock w); simpl; repeat split; try reflexivity.
  destruct (Z.land flags Readonly =? 0); reflexivity.
Qed.

(** ** Construction and flags *)

(** X1: [NewEnv] returns an error exactly when the allocation of a handle
    (for a [nil] argument) fails, or the probe of the flags fails with
    something else than [EINVAL]; it returns no [Env] exactly when it
    returns an error, and the error is that of the failing call. *)
Theorem NewEnv_fails_iff (env : option Handle) (alloc : Handle * error)
    (Flags : Handle -> Z * error) :
  let h := match env with Some h => h | None => fst alloc end in
  let result := NewEnv env alloc Flags in
  (snd result <> None <->
   (env = None /\ snd alloc <> None)
   \/ ((env <> None \/ snd alloc = None)
       /\ snd (Flags h) <> None /\ IsErrnoSys (snd (Flags h)) EINVAL = false))
  /\ (fst result = None <-> snd result <> None)
  /\ (snd result <> None ->
      snd result = match env, snd alloc with
                   | None, Some e => Some e
                   | _, _ => snd (Flags h)
                   end).
Proof.
  unfold NewEnv. destruct env as [h |]; simpl.
  - destruct (Flags h) as [flags [[| code] |]]; simpl.
    + repeat split; try congruence; auto.
      * intros _. right. repeat split; try congruence. left; congruence.
    + destruct (code =? EINVAL) eqn:Hc; simpl.
      * repeat split; try congruence.
        intros [[H _] | (_ & _ & H)]; congruence.
      * repeat split; try congruence.
        intros _. right. repeat split; try congruence. left; congruence.
    + repeat split; try congruence.
      intros [[H _] | (_ & H & _)]; congruence.
  - destruct alloc as [h [e |]]; simpl.
    + repeat split; try congruence. intros _. left. split; congruence.
    + destruct (Flags h) as [flags [[| code] |]]; simpl.
      * repeat split; try congruence.
        intros _. right. repeat split; try congruence. right; reflexivity.
      * destruct (code =? EINVAL) eqn:Hc; simpl.
        -- repeat split; try congruence.
           intros [[_ H] | (_ & _ & H)]; congruence.
        -- repeat split; try congruence.
           intros _. right. repeat split; try congruence. right; reflexivity.
      * repeat split; try congruence.
        intros [[_ H] | (_ & H & _)]; congruence.
Qed.

(** X2: an [Env] that [NewEnv] returns wraps the handle it was given (or
    the allocated one), has its lock free and no retry override, so that
    the package default is the limit; its updates take the exclusive mode
    exactly when the probed flags hold [lmdb.NoLock], its views the shared
    mode. *)
Theorem NewEnv_then_transactions
    (passed : Z -> Z) (env : option Handle) (alloc : Handle * error)
    (Flags : Handle -> Z * error) (r : Env)
    (d dd : Z) (eng : list event -> call -> error) (fuel : nat) (op : TxnOp) :
  NewEnv env alloc Flags = (Some r, None) ->
  let h := match env with Some h => h | None => fst alloc end in
  let w := world_of r d dd eng in
  r_Env r = h
  /\ txnlock w = unlocked
  /\ effective_retry w = d
  /\ acquisition (Update passed (S fuel) op) w
     = Some (if has_flag (fst (Flags h)) NoLock then Exclusive else Shared)
  /\ acquisition (View passed (S fuel) op) w = Some Shared.
Proof.
  intros H h w. unfold NewEnv in H.
  assert (Hr : r = mkEnv h 0 None (has_flag (fst (Flags h)) NoLock) unlocked).
  { unfold h. destruct env as [h0 |]; simpl in *.
    - destruct (Flags h0) as [flags err]; simpl in *.
      destruct (IsErrnoSys err EINVAL); [congruence|].
      destruct err; congruence.
    - destruct alloc as [h0 [e |]]; simpl in *; [congruence|].
      destruct (Flags h0) as [flags err]; simpl in *.
      destruct (IsErrnoSys err EINVAL); [congruence|].
      destruct err; congruence. }
  unfold w. rewrite Hr.
  split; [reflexivity|]. split; [reflexivity|]. split; [reflexivity|].
  unfold world_of. simpl.
  destruct (has_flag (fst (Flags h)) NoLock); split; reflexivity.
Qed.

(** X3: a flag-changing proxy returns what the delegated call returns
    whatever the state of [txnlock], which it leaves alone; when the call
    succeeds, [Open] and [SetFlags] set [noLock] if the flags hold
    [lmdb.NoLock] and keep it otherwise, [UnsetFlags] clears it if the
    flags hold [lmdb.NoLock] and keeps it otherwise. *)
Theorem flag_change_result (o : flagop) (w : World) :
  let r := engine w (trace w) (flag_call o) in
  exists w',
    exec (flag_prog o) w = Returned r w'
    /\ txnlock w' = txnlock w
    /\ noLock w' =
       match r, o with
       | Some _, _ => noLock w
       | None, FlagOpen _ flags _ => has_flag flags NoLock || noLock w
       | None, FlagSet flags => has_flag flags NoLock || noLock w
       | None, FlagUnset flags => negb (has_flag flags NoLock) && noLock w
       end.
Proof.
  intros r. unfold r.
  destruct o; simpl; destruct (engine w (trace w) _) as [e |]; simpl;
    try (eexists; repeat split; reflexivity);
    unfold when; destruct (has_flag flags NoLock); simpl;
    eexists; repeat split; reflexivity.
Qed.

(** X4: with flags that hold [lmdb.NoLock] and an engine that accepts the
    flag changes, an [Update] after [SetFlags] takes the exclusive mode and
    one after [UnsetFlags] the shared mode, whatever [noLock] was; of two
    changes in a row the last one decides. *)
Theorem flags_then_update
    (passed : Z -> Z) (fuel : nat) (flags : Z) (op : TxnOp) (w : World) :
  has_flag flags NoLock = true ->
  (forall tr c, is_txn_call c = false -> engine w tr c = None) ->
  acquisition (SetFlags flags ;; Update passed (S fuel) op) w = Some Exclusive
  /\ acquisition (UnsetFlags flags ;; Update passed (S fuel) op) w = Some Shared
  /\ acquisition (SetFlags flags ;; UnsetFlags flags ;;
                  Update passed (S fuel) op) w = Some Shared
  /\ acquisition (UnsetFlags flags ;; SetFlags flags ;;
                  Update passed (S fuel) op) w = Some Exclusive.
Proof.
  intros Hf He. unfold SetFlags, UnsetFlags, Update, runRetry, when. simpl.
  rewrite !He by reflexivity. simpl. rewrite Hf. simpl.
  rewrite !He by reflexivity. simpl. rewrite ?Hf. simpl.
  repeat split; reflexivity.
Qed.

(** ** Goroutines that call the engine under the lock *)

Lemma guarded_disciplined {A : Type} (p : prog A) h :
  guarded h p -> disciplined h p.
Proof.
  revert h. induction p as [a | e | | X e k IH]; simpl; intros h Hg; auto.
  destruct Hg as [_ Hg]. destruct (transition e h); auto.
Qed.

Lemma guarded_bind {A B : Type} (m : prog A) (f : A -> prog B) h :
  guarded h m -> (forall a, guarded Nothing (f a)) -> guarded h (bind m f).
Proof.
  revert h. induction m as [a | e | | X e k IH]; simpl; intros h Hm Hf; auto.
  - subst. apply Hf.
  - destruct Hm as [Hu Hm]. split; [assumption|].
    destruct (transition e h); auto.
Qed.

Lemma guarded_setMapSize size delay : guarded Nothing (setMapSize size delay).
Proof.
  unfold setMapSize, when. simpl. split; [exact I|]. intros _.
  destruct (0 <? delay); simpl; repeat (split; try exact I; try reflexivity; intros).
Qed.

Lemma guarded_SetMapSize size : guarded Nothing (SetMapSize size).
Proof. simpl. split; [exact I|]. intros _. split; exact I. Qed.

Lemma guarded_run_call ro c :
  is_txn_call c = true -> guarded Nothing (run ro (perform (Engine c))).
Proof.
  intros Hc. unfold run. simpl. split; [exact I|]. intros nl.
  destruct (nl && negb ro); simpl;
    (split; [exact I|]; intros _; split;
     [ destruct c; try discriminate; simpl; discriminate
     | intros r; split; [exact I|]; intros _; reflexivity ]).
Qed.

Lemma guarded_retryResized passed i err :
  guarded Nothing (retryResized passed i err).
Proof.
  unfold retryResized. destruct (negb (IsMapResized err)); [reflexivity|].
  apply guarded_bind.
  - unfold getRetryResize. simpl. split; [exact I|]. intros rr.
    destruct (negb (rr =? 0)); simpl; auto.
  - intros m. destruct (m <=? 0); [reflexivity|].
    destruct (m <? i); [reflexivity|].
    apply guarded_bind.
    + destruct (0 <? i); [| reflexivity]. unfold getDelayRepeatResize. simpl.
      split; [exact I|]. intros [f |]; simpl; auto.
    + intros d. apply guarded_bind; [apply guarded_setMapSize|].
      intros [e |]; simpl; auto.
Qed.

Lemma guarded_run_txn passed fuel t : guarded Nothing (run_txn passed fuel t).
Proof.
  rewrite run_txn_unfold. generalize 0 as i.
  induction fuel as [| fuel IH]; intros i; [exact I|].
  rewrite runRetry_from_S.
  apply guarded_bind; [apply guarded_run_call, txn_call_is_txn_call|].
  intros err. apply guarded_bind; [apply guarded_retryResized|].
  intros again. destruct (negb again); [reflexivity | apply IH].
Qed.


Lemma without_In i l j : In j (without i l) <-> In j l /\ j <> i.
Proof.
  unfold without. rewrite filter_In, negb_true_iff, Nat.eqb_neq. reflexivity.
Qed.

Lemma without_length i l :
  NoDup l -> In i l -> List.length l = S (List.length (without i l)).
Proof.
  induction l as [| a l IH]; intros Hnd Hin; [contradiction|].
  inversion Hnd as [| ? ? Hna Hnd']; subst. simpl.
  destruct (Nat.eqb_spec a i) as [-> | Hne]; simpl.
  - f_equal. unfold without.
    rewrite forallb_filter_id; [reflexivity|].
    apply forallb_forall. intros j Hj. apply negb_true_iff, Nat.eqb_neq.
    intros ->. contradiction.
  - f_equal. apply IH; [assumption|]. destruct Hin; [contradiction | assumption].
Qed.

Lemma holds_update i g' gs j :
  holds (update i g' gs j) = if Nat.eqb j i then holds g' else holds (gs j).
Proof. unfold update. destruct (Nat.eqb j i); reflexivity. Qed.

(** The step leaves what the goroutine holds as it was. *)
Lemma tallied_same w w' gs i g' :
  tallied (w, gs) ->
  holds g' = holds (gs i) ->
  readers (txnlock w') = readers (txnlock w) ->
  tallied (w', update i g' gs).
Proof.
  intros [(l & Hnd & Hl & Hrd) He] Hh Hr. simpl in *.
  assert (Hsame : forall j, holds (update i g' gs j) = holds (gs j)).
  { intros j. rewrite holds_update. destruct (Nat.eqb_spec j i); congruence. }
  split.
  - exists l. simpl. repeat split; try assumption; try congruence.
    + intros H. rewrite Hsame. apply Hl. assumption.
    + rewrite Hsame. apply Hl.
  - simpl. intros j1 j2. rewrite !Hsame. apply He.
Qed.

(** The step gives the goroutine the exclusive mode. *)
Lemma tallied_lock w w' gs i g' :
  tallied (w, gs) ->
  holds (gs i) = Nothing -> holds g' = HeldExclusive ->
  readers (txnlock w) = 0%nat -> readers (txnlock w') = 0%nat ->
  tallied (w', update i g' gs).
Proof.
  intros [(l & Hnd & Hl & Hrd) He] Hi Hg Hr Hr'. simpl in *.
  assert (Hnil : l = []) by (destruct l; [reflexivity | simpl in Hrd; lia]).
  subst l.
  assert (Hno : forall j, holds (update i g' gs j) <> HeldShared).
  { intros j. rewrite holds_update. destruct (Nat.eqb_spec j i); [congruence|].
    intros H. apply Hl in H. contradiction. }
  split.
  - exists []. simpl. repeat split; try assumption; try contradiction.
    intros H. apply (Hno _ H).
  - simpl. intros j1 j2 _ H. apply (Hno _ H).
Qed.

(** The step takes a mode away from the goroutine. *)
Lemma tallied_unlock w w' gs i g' :
  tallied (w, gs) ->
  holds (gs i) = HeldExclusive -> holds g' = Nothing ->
  readers (txnlock w') = readers (txnlock w) ->
  tallied (w', update i g' gs).
Proof.
  intros [(l & Hnd & Hl & Hrd) He] Hi Hg Hr. simpl in *. split.
  - exists l. simpl. repeat split; try assumption; try congruence.
    + intros H. rewrite holds_update.
      destruct (Nat.eqb_spec i0 i) as [-> | Hn]; [| apply Hl; assumption].
      apply Hl in H. congruence.
    + rewrite holds_update.
      destruct (Nat.eqb_spec i0 i) as [-> | Hn]; [congruence | apply Hl].
  - simpl. intros j1 j2. rewrite !holds_update.
    destruct (Nat.eqb_spec j1 i); [congruence|].
    destruct (Nat.eqb_spec j2 i); [congruence|]. apply He.
Qed.

(** The step gives the goroutine the shared mode. *)
Lemma tallied_rlock w w' gs i g' :
  tallied (w, gs) ->
  holds (gs i) = Nothing -> holds g' = HeldShared ->
  readers (txnlock w') = S (readers (txnlock w)) ->
  (forall j, holds (gs j) <> HeldExclusive) ->
  tallied (w', update i g' gs).
Proof.
  intros [(l & Hnd & Hl & Hrd) He] Hi Hg Hr Hno. simpl in *. split.
  - exists (i :: l). simpl. repeat split.
    + constructor; [| assumption]. intros H. apply Hl in H. congruence.
    + intros [<- | H]; rewrite holds_update.
      * rewrite Nat.eqb_refl. assumption.
      * destruct (Nat.eqb_spec i0 i); [assumption | apply Hl; assumption].
    + rewrite holds_update.
      destruct (Nat.eqb_spec i0 i) as [-> | Hn]; [auto|].
      intros H. right. apply Hl. assumption.
    + lia.
  - simpl. intros j1 j2. rewrite !holds_update.
    destruct (Nat.eqb_spec j1 i); [congruence|].
    intros H. exfalso. apply (Hno j1 H).
Qed.

(** The step takes the shared mode away from the goroutine. *)
Lemma tallied_runlock w w' gs i g' :
  tallied (w, gs) ->
  holds (gs i) = HeldShared -> holds g' = Nothing ->
  readers (txnlock w) = S (readers (txnlock w')) ->
  tallied (w', update i g' gs).
Proof.
  intros [(l & Hnd & Hl & Hrd) He] Hi Hg Hr. simpl in *. split.
  - exists (without i l). simpl. repeat split.
    + apply NoDup_filter. assumption.
    + intros H. apply without_In in H. destruct H as [H Hn].
      rewrite holds_update. apply Nat.eqb_neq in Hn. rewrite Hn.
      apply Hl. assumption.
    + rewrite holds_update.
      destruct (Nat.eqb_spec i0 i) as [-> | Hn]; [congruence|].
      intros H. apply without_In. split; [apply Hl; assumption | assumption].
    + assert (Hin : In i l) by (apply Hl; assumption).
      pose proof (without_length i l Hnd Hin). lia.
  - simpl. intros j1 j2. rewrite !holds_update.
    destruct (Nat.eqb_spec j1 i); [congruence|].
    destruct (Nat.eqb_spec j2 i); [congruence|]. apply He.
Qed.

Lemma pstep_coordinated s s' : coordinated s -> pstep s s' -> coordinated s'.
Proof.
  intros (Hc & Hg & Ht) Hs.
  pose proof (pstep_consistent s s' Hc Hs) as Hc'.
  destruct Hs as [w w' gs i g' Hstep]. simpl in Hg.
  destruct Hc as (Hd & Hw & Hu).
  pose proof (Hg i) as Hgi. unfold step_goroutine in Hstep.
  destruct (code (gs i)) as [a | a | | X e k]; try discriminate.
  destruct (handle e w) as [x w1 | |] eqn:Hh; try discriminate.
  injection Hstep as <- <-. simpl in Hgi. destruct Hgi as [Hul Hgi].
  assert (Hre : transition e (holds (gs i)) <> Reacquires).
  { intros Hr. destruct e; simpl in Hr; destruct (holds (gs i)) eqn:Hi;
      try discriminate; simpl in Hh; rewrite (Hw i Hi) in Hh; discriminate. }
  split; [assumption|]. split.
  - intros j. simpl. unfold update. destruct (Nat.eqb j i); [| apply Hg].
    simpl. unfold after.
    destruct (transition e (holds (gs i))); [apply Hgi | congruence | contradiction].
  - destruct e; simpl in Hh;
      try (injection Hh as _ <-; apply (tallied_same w); [assumption | reflexivity | reflexivity]).
    + (* Lock *)
      destruct (writer (txnlock w)) eqn:Hwr; [discriminate|].
      destruct (Nat.eqb_spec (readers (txnlock w)) 0) as [Hz | Hz]; [| discriminate].
      simpl in Hh. injection Hh as _ <-.
      destruct (holds (gs i)) eqn:Hi; simpl in Hgi, Hre; try contradiction;
        try congruence.
      apply (tallied_lock w); try assumption; reflexivity.
    + (* Unlock *)
      destruct (writer (txnlock w)) eqn:Hwr; [| discriminate].
      injection Hh as _ <-.
      destruct (holds (gs i)) eqn:Hi; simpl in Hgi; try contradiction.
      apply (tallied_unlock w); try assumption; reflexivity.
    + (* RLock *)
      destruct (writer (txnlock w)) eqn:Hwr; [discriminate|].
      injection Hh as _ <-.
      destruct (holds (gs i)) eqn:Hi; simpl in Hgi, Hre; try contradiction;
        try congruence.
      apply (tallied_rlock w); try assumption; try reflexivity.
      intros j Hj. apply Hw in Hj. congruence.
    + (* RUnlock *)
      destruct (readers (txnlock w)) as [| n] eqn:Hrd; [discriminate|].
      injection Hh as _ <-.
      destruct (holds (gs i)) eqn:Hi; simpl in Hgi; try contradiction.
      apply (tallied_runlock w); try assumption; reflexivity.
Qed.

Lemma reaches_coordinated s s' : coordinated s -> reaches s s' -> coordinated s'.
Proof.
  intros Hc Hr. induction Hr as [s | s1 s2 s3 Hr IH Hs]; [assumption|].
  apply (pstep_coordinated s2); [apply IH; assumption | assumption].
Qed.

(** A pool whose goroutines are about to start holds the invariant. *)
Lemma coordinated_start w0 gs0 :
  txnlock w0 = unlocked ->
  (forall j, holds (gs0 j) = Nothing /\ guarded Nothing (code (gs0 j))) ->
  coordinated (w0, gs0).
Proof.
  intros Hl Hall. split; [| split; [| split]].
  - split; [| split].
    + intros j. destruct (Hall j) as [-> Hg]. apply guarded_disciplined, Hg.
    + intros j Hj. destruct (Hall j) as [Hn _]. congruence.
    + intros j1 j2 Hj. destruct (Hall j1) as [Hn _]. congruence.
  - intros j. simpl. destruct (Hall j) as [-> Hg]. exact Hg.
  - exists []. simpl. rewrite Hl. repeat split; try constructor; try contradiction.
    intros H. destruct (Hall i) as [Hn _]. congruence.
  - simpl. intros j1 j2 Hj. destruct (Hall j1) as [Hn _]. congruence.
Qed.


(** X14: in every state that a pool of guarded goroutines can reach from
    a free lock, a goroutine that holds the exclusive mode is the only
    holder: every other goroutine holds nothing, and the mutex has its
    writer. *)
Theorem exclusive_mode_excludes (w0 : World) (gs0 : pool) :
  txnlock w0 = unlocked ->
  (forall j, holds (gs0 j) = Nothing /\ guarded Nothing (code (gs0 j))) ->
  forall w gs, reaches (w0, gs0) (w, gs) ->
  forall i j, holds (gs i) = HeldExclusive -> j <> i ->
    holds (gs j) = Nothing /\ writer (txnlock w) = true.
Proof.
  intros Hl Hall w gs Hr i j Hi Hn.
  pose proof (reaches_coordinated _ _ (coordinated_start w0 gs0 Hl Hall) Hr)
    as ((_ & Hw & Hu) & _ & _ & He).
  simpl in *. split; [| apply (Hw i Hi)].
  destruct (holds (gs j)) eqn:Hj; [reflexivity | |].
  - exfalso. apply (He i j); assumption.
  - exfalso. apply Hn. apply Hu; assumption.
Qed.

(** X15: in every state that a pool of guarded goroutines can reach from
    a free lock, while one goroutine stands before the engine's
    [SetMapSize], no other goroutine stands before a transaction of the
    engine or before another [SetMapSize]. *)
Theorem adoption_excludes_transactions (w0 : World) (gs0 : pool) :
  txnlock w0 = unlocked ->
  (forall j, holds (gs0 j) = Nothing /\ guarded Nothing (code (gs0 j))) ->
  forall w gs, reaches (w0, gs0) (w, gs) ->
  forall i j, at_adoption (gs i) = true -> j <> i ->
    at_adoption (gs j) = false /\ at_transaction (gs j) = false.
Proof.
  intros Hl Hall w gs Hr i j Hi Hn.
  pose proof (reaches_coordinated _ _ (coordinated_start w0 gs0 Hl Hall) Hr)
    as ((_ & Hw & Hu) & Hg & _ & He).
  simpl in *.
  assert (Hxi : holds (gs i) = HeldExclusive).
  { pose proof (Hg i) as H. unfold at_adoption in Hi.
    destruct (code (gs i)) as [a | a | | X e k]; try discriminate.
    destruct e; try discriminate. destruct c; try discriminate.
    simpl in H. apply H. }
  assert (Hj : holds (gs j) = Nothing).
  { destruct (holds (gs j)) eqn:Hj; [reflexivity | |].
    - exfalso. apply (He i j); assumption.
    - exfalso. apply Hn. apply Hu; assumption. }
  pose proof (Hg j) as H. rewrite Hj in H.
  unfold at_adoption, at_transaction.
  destruct (code (gs j)) as [a | a | | X e k]; try (split; reflexivity).
  destruct e; try (split; reflexivity).
  simpl in H. destruct H as [H _].
  destruct c; simpl in *; try (split; reflexivity); try discriminate;
    exfalso; apply H; reflexivity.
Qed.

(** Once [SetMapSize] holds the lock it stays where it is. *)
Lemma SetMapSize_locked_stays size s1 i :
  consistent s1 ->
  snd s1 i = mkGoroutine HeldExclusive (SetMapSize_locked size) ->
  forall s, reaches s1 s ->
    consistent s /\ snd s i = mkGoroutine HeldExclusive (SetMapSize_locked size).
Proof.
  intros Hc1 Hi s Hr.
  induction Hr as [s | s1 s2 s3 Hr IH Hs].
  - split; assumption.
  - specialize (IH Hc1 Hi). destruct IH as [Hc2 Hg].
    split; [apply (pstep_consistent s2); assumption|].
    destruct Hs as [w w' gs j g' Hstep]. simpl in *.
    destruct (Nat.eq_dec i j) as [<- | Hn].
    + exfalso. destruct Hc2 as (_ & Hw & _).
      assert (Hwr : writer (txnlock w) = true)
        by (apply (Hw i); rewrite Hg; reflexivity).
      rewrite Hg in Hstep. unfold step_goroutine in Hstep. simpl in Hstep.
      rewrite Hwr in Hstep. discriminate.
    + rewrite update_other by auto. exact Hg.
Qed.

(** X16: once the goroutine of the public [SetMapSize] holds the lock, in
    every later state it still holds it, no other goroutine holds anything,
    and neither [Lock] nor [RLock] can go through: no transaction and no
    adoption starts on this [Env] again. *)
Theorem SetMapSize_blocks_every_acquisition
    (size : Z) (w0 : World) (gs0 : pool) (i : nat) :
  txnlock w0 = unlocked ->
  (forall j, holds (gs0 j) = Nothing /\ guarded Nothing (code (gs0 j))) ->
  gs0 i = mkGoroutine Nothing (SetMapSize size) ->
  forall w1 gs1, reaches (w0, gs0) (w1, gs1) ->
  holds (gs1 i) = HeldExclusive ->
  forall w gs, reaches (w1, gs1) (w, gs) ->
    holds (gs i) = HeldExclusive
    /\ handle Lock w = Wait /\ handle RLock w = Wait
    /\ forall j, j <> i -> holds (gs j) = Nothing.
Proof.
  intros Hl Hall Hi w1 gs1 Hr1 Hx w gs Hr.
  pose proof (coordinated_start w0 gs0 Hl Hall) as Hco0.
  pose proof (reaches_coordinated _ _ Hco0 Hr1) as Hco1.
  destruct (SetMapSize_states size (w0, gs0) i (proj1 Hco0) Hi _ Hr1)
    as [Hc1 [Hg1 | Hg1]]; simpl in Hg1.
  { rewrite Hg1 in Hx. discriminate. }
  destruct (SetMapSize_locked_stays size (w1, gs1) i Hc1 Hg1 _ Hr) as [Hc Hg].
  simpl in Hg.
  pose proof (reaches_coordinated _ _ Hco1 Hr) as ((_ & Hw & Hu) & _ & _ & He).
  simpl in *.
  assert (Hxi : holds (gs i) = HeldExclusive) by (rewrite Hg; reflexivity).
  pose proof (Hw i Hxi) as Hwr.
  split; [assumption|]. rewrite Hwr. split; [reflexivity|]. split; [reflexivity|].
  intros j Hn. destruct (holds (gs j)) eqn:Hj; [reflexivity | |].
  - exfalso. apply (He i j); assumption.
  - exfalso. apply Hn. apply Hu; assumption.
Qed.


(** ** The sizes that reach the engine *)

Lemma adopted_sizes_app tr1 tr2 :
  adopted_sizes (tr1 ++ tr2) = adopted_sizes tr1 ++ adopted_sizes tr2.
Proof.
  induction tr1 as [| ev tr1 IH]; [reflexivity|].
  destruct ev as [| | | | d | b | c r]; simpl; try assumption.
  destruct c; simpl; try assumption. rewrite IH. reflexivity.
Qed.

(** An effect of a program that asks for the sentinel only adds no other
    size to the history. *)
Lemma handle_keeps_sentinel {X : Type} (e : effect X) w x w' :
  size_is_sentinel e ->
  handle e w = Next x w' ->
  Forall (fun z => z = 0) (adopted_sizes (trace w)) ->
  Forall (fun z => z = 0) (adopted_sizes (trace w')).
Proof.
  intros Hs Hh Hw.
  assert (Hlog : forall ev w1,
             adopted_sizes [ev] = [] ->
             trace w1 = trace w ->
             Forall (fun z => z = 0) (adopted_sizes (trace (log ev w1)))).
  { intros ev w1 Hev Ht. unfold log. cbn [trace].
    rewrite adopted_sizes_app, Hev, Ht, app_nil_r. assumption. }
  destruct e; simpl in Hh.
  - destruct (writer (txnlock w) || negb (Nat.eqb (readers (txnlock w)) 0));
      [discriminate|].
    injection Hh as _ <-. apply Hlog; reflexivity.
  - destruct (writer (txnlock w)); [| discriminate].
    injection Hh as _ <-. apply Hlog; reflexivity.
  - destruct (writer (txnlock w)); [discriminate|].
    injection Hh as _ <-. apply Hlog; reflexivity.
  - destruct (readers (txnlock w)); [discriminate|].
    injection Hh as _ <-. apply Hlog; reflexivity.
  - injection Hh as _ <-. apply Hlog; reflexivity.
  - injection Hh as _ <-. assumption.
  - injection Hh as _ <-. apply Hlog; reflexivity.
  - injection Hh as _ <-. assumption.
  - injection Hh as _ <-. assumption.
  - injection Hh as _ <-. assumption.
  - injection Hh as _ <-. assumption.
  - injection Hh as _ <-. unfold log. cbn [trace].
    rewrite adopted_sizes_app. apply Forall_app. split; [assumption|].
    destruct c; simpl; try constructor; [assumption | constructor].
Qed.

Lemma exec_keeps_sentinel {A : Type} (p : prog A) :
  adopts_only_sentinel p ->
  forall w,
    Forall (fun z => z = 0) (adopted_sizes (trace w)) ->
    Forall (fun z => z = 0) (adopted_sizes (trace (final_world (exec p w)))).
Proof.
  induction p as [a | e | | X e k IH]; simpl; intros Hp w Hw; try assumption.
  destruct Hp as [He Hk].
  destruct (handle e w) as [x w' | |] eqn:Hh; simpl; try assumption.
  apply IH; [apply Hk|]. apply (handle_keeps_sentinel e w x w'); assumption.
Qed.

(** X12: no path of a transaction entry point calls the engine's
    [SetMapSize] with a size other than 0, and, whatever the engine
    answers, when the entry point ends (however it ends) the engine has
    been asked for no other size than 0, if that was so before. *)
Theorem run_txn_adopts_only_sentinel
    (passed : Z -> Z) (fuel : nat) (t : txn) (w : World) :
  Forall (fun z => z = 0) (adopted_sizes (trace w)) ->
  adopts_only_sentinel (run_txn passed fuel t)
  /\ Forall (fun z => z = 0)
       (adopted_sizes (trace (final_world (exec (run_txn passed fuel t) w)))).
Proof.
  intros Hw. split; [apply adopts_only_sentinel_run_txn|].
  apply exec_keeps_sentinel; [apply adopts_only_sentinel_run_txn | assumption].
Qed.

(** * The further properties at concrete inputs *)

(** X2 on a handle whose flags hold [lmdb.NoLock]. *)
Lemma NewEnv_then_transactions_witness :
  r_Env (mkEnv 1%nat 0 None true unlocked) = 1%nat
  /\ txnlock (world_of (mkEnv 1%nat 0 None true unlocked) 2 1000000 resized_always)
     = unlocked
  /\ effective_retry
       (world_of (mkEnv 1%nat 0 None true unlocked) 2 1000000 resized_always) = 2
  /\ acquisition (Update (fun i => i) 3 7%nat)
       (world_of (mkEnv 1%nat 0 None true unlocked) 2 1000000 resized_always)
     = Some Exclusive
  /\ acquisition (View (fun i => i) 3 7%nat)
       (world_of (mkEnv 1%nat 0 None true unlocked) 2 1000000 resized_always)
     = Some Shared.
Proof.
  exact (NewEnv_then_transactions (fun i => i) (Some 1%nat) (0%nat, None)
           (fun _ => (NoLock, None)) (mkEnv 1%nat 0 None true unlocked)
           2 1000000 resized_always 2 7%nat eq_refl).
Defined.

(** X4 with the flags [lmdb.NoLock] alone. *)
Lemma flags_then_update_witness :
  acquisition (SetFlags NoLock ;; Update (fun i => i) 3 7%nat)
    (fresh 0 None false resized_always) = Some Exclusive
  /\ acquisition (UnsetFlags NoLock ;; Update (fun i => i) 3 7%nat)
       (fresh 0 None false resized_always) = Some Shared
  /\ acquisition (SetFlags NoLock ;; UnsetFlags NoLock ;;
                  Update (fun i => i) 3 7%nat)
       (fresh 0 None false resized_always) = Some Shared
  /\ acquisition (UnsetFlags NoLock ;; SetFlags NoLock ;;
                  Update (fun i => i) 3 7%nat)
       (fresh 0 None false resized_always) = Some Exclusive.
Proof.
  apply (flags_then_update (fun i => i) 2 NoLock 7%nat
           (fresh 0 None false resized_always)).
  - reflexivity.
  - intros tr c H. simpl. unfold resized_always. rewrite H. reflexivity.
Defined.

(** X6 on an update in no-lock mode whose closure fails once. *)
Lemma run_txn_releases_lock_witness :
  blocked (exec (run_txn (fun i => i) 4 (TxnUpdate 7%nat))
             (fresh 1 None true (resized_first 1))) = false
  /\ txnlock (final_world (exec (run_txn (fun i => i) 4 (TxnUpdate 7%nat))
                             (fresh 1 None true (resized_first 1)))) = unlocked
  /\ noLock (final_world (exec (run_txn (fun i => i) 4 (TxnUpdate 7%nat))
                            (fresh 1 None true (resized_first 1))))
     = noLock (fresh 1 None true (resized_first 1)).
Proof.
  apply (run_txn_releases_lock (fun i => i) 4 (TxnUpdate 7%nat)
           (fresh 1 None true (resized_first 1))).
  reflexivity.
Defined.

(** X7 on a view whose closure fails twice under the default limit. *)
Lemma run_txn_executions_and_adoptions_witness :
  exists evs,
    final_world (exec (run_txn (fun i => i) 5 (TxnView 7%nat))
                   (fresh 0 None false (resized_first 2)))
    = extend evs (fresh 0 None false (resized_first 2))
    /\ match exec (run_txn (fun i => i) 5 (TxnView 7%nat))
               (fresh 0 None false (resized_first 2)) with
       | Returned _ _ => executions evs = S (adoptions evs)
       | Panicked _ _ =>
           executions evs = adoptions evs /\ (0 < adoptions evs)%nat
       | _ => executions evs = 5%nat /\ adoptions evs = 5%nat
       end.
Proof.
  apply (run_txn_executions_and_adoptions (fun i => i) 5 (TxnView 7%nat)
           (fresh 0 None false (resized_first 2))).
  reflexivity.
Defined.

(** X8 with an engine that refuses every adoption. *)
Lemma run_txn_panics_when_adoption_fails_witness :
  exists evs,
    exec (run_txn (fun i => i) 3 (TxnUpdate 7%nat))
         (fresh 2 None false (adoption_fails_with (Failure 12)))
    = Panicked (Failure 12)
        (extend evs (fresh 2 None false (adoption_fails_with (Failure 12))))
    /\ executions evs = 1%nat /\ adoptions evs = 1%nat
    /\ txnlock (extend evs (fresh 2 None false (adoption_fails_with (Failure 12))))
       = unlocked.
Proof.
  apply (run_txn_panics_when_adoption_fails (fun i => i) 2 (TxnUpdate 7%nat)
           (fresh 2 None false (adoption_fails_with (Failure 12))) (Failure 12)).
  - reflexivity.
  - reflexivity.
  - intros tr H. reflexivity.
  - intros tr. reflexivity.
Defined.

(** X9 with the override at 0, so that the default 2 is the limit. *)
Lemma run_txn_exhausts_after_limit_plus_one_witness :
  exists w',
    exec (run_txn (fun i => i) 4 (TxnView 7%nat))
         (fresh 0 None false resized_always)
    = Returned (Some MapResized) w'
    /\ adoptions (trace w') = 3%nat /\ executions (trace w') = 4%nat.
Proof.
  apply (run_txn_exhausts_after_limit_plus_one (fun i => i) 2 (TxnView 7%nat)
           (fresh 0 None false resized_always) 4).
  - reflexivity.
  - reflexivity.
  - reflexivity.
  - lia.
  - unfold int_max. simpl. lia.
  - intros tr. reflexivity.
  - intros tr. reflexivity.
  - lia.
Defined.

(** X10 under the limit 2. *)
Lemma runRetry_ends_within_limit_witness :
  exists evs,
    ((exists r,
        exec (run_txn (fun i => i) 4 (TxnUpdate 7%nat))
             (fresh 2 None false (resized_first 1))
        = Returned r (extend evs (fresh 2 None false (resized_first 1))))
     \/ (exists e,
           exec (run_txn (fun i => i) 4 (TxnUpdate 7%nat))
                (fresh 2 None false (resized_first 1))
           = Panicked e (extend evs (fresh 2 None false (resized_first 1)))))
    /\ (executions evs
        <= Z.to_nat (effective_retry (fresh 2 None false (resized_first 1))) + 2)%nat
    /\ (adoptions evs
        <= Z.to_nat (effective_retry (fresh 2 None false (resized_first 1))) + 1)%nat.
Proof.
  apply (runRetry_ends_within_limit (fun i => i) (TxnUpdate 7%nat)
           (fresh 2 None false (resized_first 1)) 4).
  - reflexivity.
  - reflexivity.
  - unfold effective_retry. simpl. lia.
Defined.

(** X11 at attempt 2 with the declared default of one millisecond. *)
Lemma retryResized_default_delay_witness :
  exec (retryResized (fun _ => 0) 2 (Some MapResized))
       (fresh 2 None false resized_always)
  = Returned true
      (extend [EvLock; EvSleep 1000000; EvCall (Env_SetMapSize 0) None; EvUnlock]
         (fresh 2 None false resized_always)).
Proof.
  refine (retryResized_default_delay (fun _ => 0) 2
            (fresh 2 None false resized_always) _ _ _ _ _ _).
  - reflexivity.
  - reflexivity.
  - reflexivity.
  - discriminate.
  - reflexivity.
  - intros tr. reflexivity.
Defined.

(** X14 on the pool of three goroutines once the first holds the lock. *)
Lemma exclusive_mode_excludes_witness :
  holds (update 0 (mkGoroutine HeldExclusive (SetMapSize_locked 1048576))
           (three_goroutines (fun i => i)) 1%nat) = Nothing
  /\ writer (txnlock (locked (fresh 0 None true resized_always))) = true.
Proof.
  refine (exclusive_mode_excludes (fresh 0 None true resized_always)
            (three_goroutines (fun i => i)) _ _
            (locked (fresh 0 None true resized_always))
            (update 0 (mkGoroutine HeldExclusive (SetMapSize_locked 1048576))
               (three_goroutines (fun i => i)))
            _ 0%nat 1%nat _ _).
  - reflexivity.
  - intros j. destruct j as [| [| [| j]]]; split; try reflexivity.
    + apply guarded_SetMapSize.
    + apply (guarded_run_txn (fun i => i) 3 (TxnUpdate 7%nat)).
    + apply (guarded_run_txn (fun i => i) 3 (TxnView 8%nat)).
  - apply (reaches_step _ (fresh 0 None true resized_always,
                           three_goroutines (fun i => i))).
    + apply reaches_refl.
    + apply pstep_at. reflexivity.
  - reflexivity.
  - discriminate.
Defined.

(** X15 on a pool where the first goroutine, in [setMapSize], holds the
    lock and stands before the engine's [SetMapSize]. *)
Lemma adoption_excludes_transactions_witness :
  at_adoption (update 0 (mkGoroutine HeldExclusive setMapSize_locked)
                 (adopting_goroutines (fun i => i)) 1%nat) = false
  /\ at_transaction (update 0 (mkGoroutine HeldExclusive setMapSize_locked)
                       (adopting_goroutines (fun i => i)) 1%nat) = false.
Proof.
  refine (adoption_excludes_transactions (fresh 0 None false resized_always)
            (adopting_goroutines (fun i => i)) _ _
            (locked (fresh 0 None false resized_always))
            (update 0 (mkGoroutine HeldExclusive setMapSize_locked)
               (adopting_goroutines (fun i => i)))
            _ 0%nat 1%nat _ _).
  - reflexivity.
  - intros j. destruct j as [| [| j]]; split; try reflexivity.
    + apply guarded_setMapSize.
    + apply (guarded_run_txn (fun i => i) 3 (TxnView 8%nat)).
  - apply (reaches_step _ (fresh 0 None false resized_always,
                           adopting_goroutines (fun i => i))).
    + apply reaches_refl.
    + apply pstep_at. reflexivity.
  - reflexivity.
  - discriminate.
Defined.

(** X16 on the pool of three goroutines once the first holds the lock. *)
Lemma SetMapSize_blocks_every_acquisition_witness :
  holds (update 0 (mkGoroutine HeldExclusive (SetMapSize_locked 1048576))
           (three_goroutines (fun i => i)) 0%nat) = HeldExclusive
  /\ handle Lock (locked (fresh 0 None true resized_always)) = Wait
  /\ handle RLock (locked (fresh 0 None true resized_always)) = Wait
  /\ forall j, j <> 0%nat ->
       holds (update 0 (mkGoroutine HeldExclusive (SetMapSize_locked 1048576))
                (three_goroutines (fun i => i)) j) = Nothing.
Proof.
  refine (SetMapSize_blocks_every_acquisition 1048576
            (fresh 0 None true resized_always)
            (three_goroutines (fun i => i)) 0%nat _ _ _
            (locked (fresh 0 None true resized_always))
            (update 0 (mkGoroutine HeldExclusive (SetMapSize_locked 1048576))
               (three_goroutines (fun i => i)))
            _ _
            (locked (fresh 0 None true resized_always))
            (update 0 (mkGoroutine HeldExclusive (SetMapSize_locked 1048576))
               (three_goroutines (fun i => i)))
            _).
  - reflexivity.
  - intros j. destruct j as [| [| [| j]]]; split; try reflexivity.
    + apply guarded_SetMapSize.
    + apply (guarded_run_txn (fun i => i) 3 (TxnUpdate 7%nat)).
    + apply (guarded_run_txn (fun i => i) 3 (TxnView 8%nat)).
  - reflexivity.
  - apply (reaches_step _ (fresh 0 None true resized_always,
                           three_goroutines (fun i => i))).
    + apply reaches_refl.
    + apply pstep_at. reflexivity.
  - reflexivity.
  - apply reaches_refl.
Defined.

(** X12 on an update whose closure always fails. *)
Lemma run_txn_adopts_only_sentinel_witness :
  adopts_only_sentinel (run_txn (fun i => i) 4 (TxnUpdate 7%nat))
  /\ Forall (fun z => z = 0)
       (adopted_sizes
          (trace (final_world
                    (exec (run_txn (fun i => i) 4 (TxnUpdate 7%nat))
                       (fresh 0 None false resized_always))))).
Proof.
  apply (run_txn_adopts_only_sentinel (fun i => i) 4 (TxnUpdate 7%nat)
           (fresh 0 None false resized_always)).
  constructor.
Defined.
